(** * faceterm: the asciichat relay server

    A shallow embedding of [asciichat-server/main.go]: the client registry
    ([Server.add], [Server.remove], [Server.broadcast]), the connection
    acceptor ([Server.handleWS]) and the two loops of a session
    ([Server.reader], [Server.writer]), followed by the properties of the
    relay.

    Every critical section of the server runs under [Server.mu] and releases
    it through [defer], so each of [add], [remove] and [broadcast] is one
    atomic function on the state of the process.  A Go panic is an explicit
    [outcome]: the state reached when the panic is raised is kept, since the
    deferred unlock still runs. *)

From Stdlib Require Import Strings.String Strings.Byte.
From stdpp Require Import gmap list fin_maps fin_sets.

(** ** Data model *)

(** The address of a [Client] struct ([*Client]): map keys and the identity
    of a session. *)
Abbreviation ptr := positive.

(** A message is a [[]byte]. *)
Abbreviation payload := (list Byte.byte).

(** [const maxClients = 2] *)
Definition maxClients : nat := 2.

(** A buffered Go channel of [[]byte]: pending elements oldest first, the
    capacity given to [make], and whether [close] was called. *)
Record Chan := mkChan {
  buf : list payload;
  cap : nat;
  closed : bool
}.

(** gorilla/websocket message types used by the server. *)
Inductive MsgType := TextMessage | BinaryMessage.

(** A websocket connection as the server sees it: the frames handed to
    [WriteMessage] while the connection was open, in order, and whether
    [Close] was called. *)
Record Conn := mkConn {
  wire : list (MsgType * payload);
  conn_closed : bool
}.

(** [type Client struct { conn *websocket.Conn; send chan []byte }].
    [handleWS] is the only place a [Client] is built, and it gives each one
    the connection just upgraded and a channel just made: no two clients
    share either, so the heap keeps both inside the client they belong to. *)
Record Client := mkClient {
  conn : Conn;
  send : Chan
}.

(** The state of the process: [Server.clients] (a [map[*Client]bool]), the
    [Client] structs allocated so far, and the sessions whose [reader] loop,
    respectively [writer] goroutine, is running. *)
Record World := mkWorld {
  clients : gmap ptr bool;
  heap : gmap ptr Client;
  readers : gset ptr;
  writers : gset ptr
}.

(** How a call ends: it returns, or it panics. *)
Inductive outcome := Done | Panicked.

Definition set_clients (w : World) (m : gmap ptr bool) : World :=
  mkWorld m (heap w) (readers w) (writers w).

Definition set_heap (w : World) (h : gmap ptr Client) : World :=
  mkWorld (clients w) h (readers w) (writers w).

Definition set_readers (w : World) (r : gset ptr) : World :=
  mkWorld (clients w) (heap w) r (writers w).

Definition set_writers (w : World) (r : gset ptr) : World :=
  mkWorld (clients w) (heap w) (readers w) r.

Definition set_send (cl : Client) (ch : Chan) : Client := mkClient (conn cl) ch.

Definition set_conn (cl : Client) (cn : Conn) : Client := mkClient cn (send cl).

(** ** Channels and connections *)

(** [make(chan []byte, n)] *)
Definition make_chan (n : nat) : Chan := mkChan [] n false.

(** [close(ch)]: panics on a channel that is already closed. *)
Definition close_chan (ch : Chan) : option Chan :=
  if closed ch then None else Some (mkChan (buf ch) (cap ch) true).

(** [select { case ch <- msg: default: }]: a send on a closed channel
    panics; otherwise the message is appended when the buffer has room and
    the [default] branch is taken when it has none. *)
Definition try_send (ch : Chan) (msg : payload) : option Chan :=
  if closed ch then None
  else if length (buf ch) <? cap ch
       then Some (mkChan (buf ch ++ [msg]) (cap ch) false)
       else Some ch.

(** [conn.WriteMessage(t, data)]: an error on a closed connection; on an open
    one the frame is handed to the transport, whose own failure [neterr] is
    the environment's.  The second component is [err != nil]. *)
Definition WriteMessage (cn : Conn) (t : MsgType) (data : payload)
    (neterr : bool) : Conn * bool :=
  if conn_closed cn then (cn, true)
  else (mkConn (wire cn ++ [(t, data)]) false, neterr).

(** [conn.Close()] *)
Definition Close (cn : Conn) : Conn := mkConn (wire cn) true.

(** ** The registry *)

(** [NewServer()], in a process that has accepted nothing yet. *)
Definition NewServer : World := mkWorld ∅ ∅ ∅ ∅.

(** [func (s *Server) add(c *Client) bool] *)
Definition add (w : World) (c : ptr) : World * bool :=
  if decide (maxClients ≤ size (clients w)) then (w, false)
  else (set_clients w (<[c := true]> (clients w)), true).

(** [func (s *Server) remove(c *Client)]: [delete] first, then
    [close(c.send)], which may panic. *)
Definition remove (w : World) (c : ptr) : World * outcome :=
  let w1 := set_clients w (delete c (clients w)) in
  match heap w1 !! c with
  | None => (w1, Panicked)
  | Some cl =>
      match close_chan (send cl) with
      | None => (w1, Panicked)
      | Some ch => (set_heap w1 (<[c := set_send cl ch]> (heap w1)), Done)
      end
  end.

(** The body of [for c := range s.clients] in [broadcast], over the keys in
    the order the runtime yields them. *)
Fixpoint broadcast_loop (order : list ptr) (sender : ptr) (msg : payload)
    (h : gmap ptr Client) : gmap ptr Client * outcome :=
  match order with
  | [] => (h, Done)
  | c :: rest =>
      if decide (c = sender) then broadcast_loop rest sender msg h
      else
        match h !! c with
        | None => (h, Panicked)
        | Some cl =>
            match try_send (send cl) msg with
            | None => (h, Panicked)
            | Some ch => broadcast_loop rest sender msg (<[c := set_send cl ch]> h)
            end
        end
  end.

(** [broadcast] with the iteration order of the map made explicit: Go leaves
    the order of [range] over a map unspecified. *)
Definition broadcast_in (order : list ptr) (w : World) (sender : ptr)
    (msg : payload) : World * outcome :=
  let '(h, o) := broadcast_loop order sender msg (heap w) in (set_heap w h, o).

(** [func (s *Server) broadcast(sender *Client, msg []byte)] *)
Definition broadcast (w : World) (sender : ptr) (msg : payload)
    : World * outcome :=
  broadcast_in (elements (dom (clients w))) w sender msg.

(** ** The websocket endpoint *)

(** What [CheckOrigin] can look at: the request's [Origin] header, if any,
    and its [Host]. *)
Record Request := mkRequest {
  origin : option string;
  host : string
}.

Record Upgrader := mkUpgrader {
  CheckOrigin : Request → bool
}.

(** [var upgrader = websocket.Upgrader{CheckOrigin: func(r) bool { return true }}] *)
Definition upgrader : Upgrader := mkUpgrader (λ _, true).

(** [[]byte("room full (2 clients max)")] *)
Definition room_full : payload :=
  list_byte_of_string "room full (2 clients max)".

(** The address [&Client{...}] yields: one no allocated client has. *)
Definition new_ptr (w : World) : ptr := fresh (dom (heap w)).

(** [func (s *Server) handleWS(w, r)] up to the point where it returns or
    enters [reader]: [upgraded] tells whether [upgrader.Upgrade] succeeded.
    On admission the writer goroutine is started and the reader loop is
    entered.  On refusal the error of the room-full write is dropped, as in
    the source, so the answer of the transport plays no part. *)
Definition handleWS (w : World) (upgraded : bool) : World :=
  if upgraded then
    let p := new_ptr w in
    let client := mkClient (mkConn [] false) (make_chan 16) in
    let w1 := set_heap w (<[p := client]> (heap w)) in
    let '(w2, ok) := add w1 p in
    if ok then
      set_readers (set_writers w2 ({[p]} ∪ writers w2)) ({[p]} ∪ readers w2)
    else
      let cn1 := fst (WriteMessage (conn client) TextMessage room_full false) in
      set_heap w2 (<[p := set_conn client (Close cn1)]> (heap w2))
  else w.

(** [c.conn.Close()] on the client at [c]. *)
Definition close_conn (w : World) (c : ptr) : World :=
  match heap w !! c with
  | None => w
  | Some cl => set_heap w (<[c := set_conn cl (Close (conn cl))]> (heap w))
  end.

(** The deferred function of [reader]: [s.remove(c)], then [c.conn.Close()];
    the loop is over either way. *)
Definition reader_exit (w : World) (c : ptr) : World * outcome :=
  let '(w1, o) := remove w c in
  let w2 := match o with Done => close_conn w1 c | Panicked => w1 end in
  (set_readers w2 (readers w2 ∖ {[c]}), o).

(** One iteration of the loop of [func (s *Server) reader(c *Client)]:
    [r] is what [c.conn.ReadMessage()] returned, [Some msg] or an error. *)
Definition reader_step (w : World) (c : ptr) (r : option payload)
    : World * outcome :=
  match r with
  | None => reader_exit w c
  | Some msg =>
      let '(w1, o) := broadcast w c msg in
      match o with
      | Done => (w1, Done)
      | Panicked => (fst (reader_exit w1 c), Panicked)
      end
  end.

(** One iteration of the loop of [func (s *Server) writer(c *Client)]:
    [None] when the receive blocks (empty, open queue).  Returns the message
    taken from the queue, if any. *)
Definition writer_step (w : World) (c : ptr) (neterr : bool)
    : option (World * option payload) :=
  match heap w !! c with
  | None => None
  | Some cl =>
      match buf (send cl) with
      | [] =>
          if closed (send cl)
          then Some (set_writers w (writers w ∖ {[c]}), None)
          else None
      | msg :: rest =>
          let ch := mkChan rest (cap (send cl)) (closed (send cl)) in
          let '(cn, err) := WriteMessage (conn cl) TextMessage msg neterr in
          let w1 := set_heap w (<[c := mkClient cn ch]> (heap w)) in
          Some (if err then set_writers w1 (writers w1 ∖ {[c]}) else w1,
                Some msg)
      end
  end.

(** ** The process as a transition system *)

Inductive event :=
  | EvConnect (upgraded : bool)
  | EvRead (c : ptr) (r : option payload)
  | EvWrite (c : ptr) (neterr : bool).

(** An event can happen only while the loop it belongs to is running. *)
Definition exec (w : World) (ev : event) : option (World * outcome) :=
  match ev with
  | EvConnect upgraded => Some (handleWS w upgraded, Done)
  | EvRead c r => if decide (c ∈ readers w) then Some (reader_step w c r) else None
  | EvWrite c neterr =>
      if decide (c ∈ writers w)
      then (λ r, (fst r, Done)) <$> writer_step w c neterr
      else None
  end.

Fixpoint run (w : World) (evs : list event) : option World :=
  match evs with
  | [] => Some w
  | ev :: rest =>
      match exec w ev with
      | None => None
      | Some (w1, _) => run w1 rest
      end
  end.

(** A sequence of registry operations, as any caller could issue them.  A
    [remove] that panics has done its [delete] by then, and the state it
    leaves is the one the next operation finds. *)
Inductive reg_op :=
  | OpAdd (c : ptr)
  | OpRemove (c : ptr).

Definition apply_op (w : World) (op : reg_op) : World :=
  match op with
  | OpAdd c => fst (add w c)
  | OpRemove c => fst (remove w c)
  end.

(** The registry after each operation of [ops], in order. *)
Fixpoint trace_ops (w : World) (ops : list reg_op) : list World :=
  match ops with
  | [] => []
  | op :: rest => apply_op w op :: trace_ops (apply_op w op) rest
  end.

(** ** Well-formed states *)

(** Every registered session has an allocated client whose queue is open and
    was made with capacity 16. *)
Definition members_open (w : World) : Prop :=
  ∀ c, c ∈ dom (clients w) →
    ∃ cl, heap w !! c = Some cl ∧ closed (send cl) = false ∧ cap (send cl) = 16.

(** What holds between any two steps of the process. *)
Record Inv (w : World) : Prop := mkInv {
  inv_size : size (clients w) ≤ maxClients;
  inv_readers : dom (clients w) = readers w;
  inv_open : ∀ c, c ∈ readers w →
    ∃ cl, heap w !! c = Some cl ∧ closed (send cl) = false;
  inv_queue : ∀ c cl, heap w !! c = Some cl →
    cap (send cl) = 16 ∧ length (buf (send cl)) ≤ 16;
  inv_writers : writers w ⊆ dom (heap w)
}.

(** The states the process can be in. *)
Inductive reachable : World → Prop :=
  | reach_start : reachable NewServer
  | reach_step w ev w' o :
      reachable w → exec w ev = Some (w', o) → reachable w'.

(** The queue of the client at [c]; empty when there is no such client. *)
Definition queue (w : World) (c : ptr) : list payload :=
  match heap w !! c with
  | None => []
  | Some cl => buf (send cl)
  end.

(** The messages [c]'s reader broadcasts along [evs], in order. *)
Fixpoint sent_by (c : ptr) (evs : list event) : list payload :=
  match evs with
  | [] => []
  | EvRead c' (Some msg) :: rest =>
      if decide (c' = c) then msg :: sent_by c rest else sent_by c rest
  | _ :: rest => sent_by c rest
  end.

(** The messages broadcast along [evs] by anyone but [c], in order. *)
Fixpoint offered_to (c : ptr) (evs : list event) : list payload :=
  match evs with
  | [] => []
  | EvRead c' (Some msg) :: rest =>
      if decide (c' = c) then offered_to c rest else msg :: offered_to c rest
  | _ :: rest => offered_to c rest
  end.

(** The messages [c]'s writer takes from its queue along the run of [evs]
    from [w], in order. *)
Fixpoint consumed (c : ptr) (w : World) (evs : list event) : list payload :=
  match evs with
  | [] => []
  | ev :: rest =>
      match exec w ev with
      | None => []
      | Some (w1, _) =>
          match ev with
          | EvWrite c' _ =>
              if decide (c' = c)
              then match queue w c with
                   | [] => consumed c w1 rest
                   | msg :: _ => msg :: consumed c w1 rest
                   end
              else consumed c w1 rest
          | _ => consumed c w1 rest
          end
      end
  end.

(** The frames written on the connection of the client at [c]. *)
Definition wire_of (w : World) (c : ptr) : list (MsgType * payload) :=
  match heap w !! c with
  | None => []
  | Some cl => wire (conn cl)
  end.

(** The events of a sender whose reads all succeed, one per message. *)
Definition reads_of (c : ptr) (msgs : list payload) : list event :=
  (λ msg, EvRead c (Some msg)) <$> msgs.

(** Whether [Close] was called on the connection of the client at [c]. *)
Definition hung_up (w : World) (c : ptr) : bool :=
  match heap w !! c with
  | None => false
  | Some cl => conn_closed (conn cl)
  end.

(** The message the writer of [c] takes from its queue at the event [ev],
    if [ev] is an iteration of that writer and the queue is not empty. *)
Definition taken (c : ptr) (w : World) (ev : event) : list payload :=
  match ev with
  | EvWrite c' _ => if decide (c' = c) then take 1 (queue w c) else []
  | _ => []
  end.

(** ** The renderer of the client *)

(** [var asciiChars = []byte(" .:-=+*#%@")] *)
Definition asciiChars : list Byte.byte := list_byte_of_string " .:-=+*#%@".

(** The byte ['\n']. *)
Definition newline : Byte.byte := Byte.x0a.

(** A pixel as [GetVecbAt] returns it: the channels blue, green, red. *)
Record Vecb := mkVecb {
  blue : Byte.byte;
  green : Byte.byte;
  red : Byte.byte
}.

(** A [gocv.Mat] of pixels: [Rows()], [Cols()] and [GetVecbAt(y, x)]. *)
Record Mat := mkMat {
  Rows : nat;
  Cols : nat;
  GetVecbAt : nat → nat → Vecb
}.

(** The values [y] takes in [for y := 0; y < rows; y += 2]. *)
Definition every_other (rows : nat) : list nat :=
  (λ i, 2 * i) <$> seq 0 (Nat.div2 (S rows)).

Section renderer.
(** [int(lum / 256 * float64(len(asciiChars)-1))] for a pixel, where [lum]
    is the weighted sum of the three channels: computed in [float64], whose
    rounding (fused or not) is the platform's, so it is taken as given. *)
Variable shade : Vecb → Z.

(** [asciiChars[idx]]: an index out of range panics. *)
Definition glyph (c : Vecb) : option Byte.byte :=
  if decide (0 ≤ shade c < Z.of_nat (length asciiChars))%Z
  then asciiChars !! Z.to_nat (shade c)
  else None.

(** The inner loop of [matToASCII], [for x := 0; x < cols; x++], over the
    columns [xs] still to visit. *)
Fixpoint ascii_line (mat : Mat) (y : nat) (xs : list nat) (out : list Byte.byte)
    : option (list Byte.byte) :=
  match xs with
  | [] => Some out
  | x :: rest =>
      match glyph (GetVecbAt mat y x) with
      | None => None
      | Some ch => ascii_line mat y rest (out ++ [ch])
      end
  end.

(** The outer loop of [matToASCII] over the rows [ys] still to visit. *)
Fixpoint ascii_lines (mat : Mat) (ys : list nat) (out : list Byte.byte)
    : option (list Byte.byte) :=
  match ys with
  | [] => Some out
  | y :: rest =>
      match ascii_line mat y (seq 0 (Cols mat)) out with
      | None => None
      | Some out1 => ascii_lines mat rest (out1 ++ [newline])
      end
  end.

(** [func matToASCII(mat gocv.Mat) string]; [None] is a panic. *)
Definition matToASCII (mat : Mat) : option (list Byte.byte) :=
  ascii_lines mat (every_other (Rows mat)) [].
End renderer.

(** ** The coloured renderer *)

(** The byte ['\033'] that opens an ANSI sequence. *)
Definition esc : Byte.byte := Byte.x1b.

(** The decimal digit [n], for [n] below 10. *)
Definition digit (n : N) : Byte.byte := default Byte.x30 (Byte.of_N (48 + n)).

(** [%d] of a [uint8]: its decimal digits, the most significant first. *)
Definition decimal (b : Byte.byte) : list Byte.byte :=
  let n := Byte.to_N b in
  if (n <? 10)%N then [digit n]
  else if (n <? 100)%N then [digit (n / 10); digit (n `mod` 10)]
  else [digit (n / 100); digit ((n / 10) `mod` 10); digit (n `mod` 10)].

(** [fmt.Fprintf(&b, "\033[38;2;%d;%d;%dm%c", rr, gg, bb, ch)] *)
Definition colour_cell (c : Vecb) (ch : Byte.byte) : list Byte.byte :=
  esc :: list_byte_of_string "[38;2;" ++ decimal (red c) ++
  list_byte_of_string ";" ++ decimal (green c) ++
  list_byte_of_string ";" ++ decimal (blue c) ++
  list_byte_of_string "m" ++ [ch].

(** ["\033[0m"] *)
Definition reset_colour : list Byte.byte := esc :: list_byte_of_string "[0m".

Section colour_renderer.
Variable shade : Vecb → Z.

(** The inner loop of [matToASCIIColor] over the columns [xs]. *)
Fixpoint colour_line (mat : Mat) (y : nat) (xs : list nat) (out : list Byte.byte)
    : option (list Byte.byte) :=
  match xs with
  | [] => Some out
  | x :: rest =>
      let c := GetVecbAt mat y x in
      match glyph shade c with
      | None => None
      | Some ch => colour_line mat y rest (out ++ colour_cell c ch)
      end
  end.

(** The outer loop of [matToASCIIColor] over the rows [ys]. *)
Fixpoint colour_lines (mat : Mat) (ys : list nat) (out : list Byte.byte)
    : option (list Byte.byte) :=
  match ys with
  | [] => Some out
  | y :: rest =>
      match colour_line mat y (seq 0 (Cols mat)) out with
      | None => None
      | Some out1 => colour_lines mat rest (out1 ++ [newline])
      end
  end.

(** [func matToASCIIColor(mat gocv.Mat) string]; [None] is a panic. *)
Definition matToASCIIColor (mat : Mat) : option (list Byte.byte) :=
  (.++ reset_colour) <$> colour_lines mat (every_other (Rows mat)) [].
End colour_renderer.

(** What a terminal prints of [l]: the bytes outside the sequences that run
    from [esc] to the next ['m']; [inside] tells whether such a sequence is
    open. *)
Fixpoint visible (inside : bool) (l : list Byte.byte) : list Byte.byte :=
  match l with
  | [] => []
  | b :: rest =>
      if inside
      then visible (negb (Byte.eqb b Byte.x6d)) rest
      else if Byte.eqb b esc then visible true rest
           else b :: visible false rest
  end.

(** [out] ends outside any ANSI sequence. *)
Definition settled (out : list Byte.byte) : Prop :=
  ∀ rest, visible false (out ++ rest) = visible false out ++ visible false rest.

(** ** The sending loop of the client *)

(** Go's [int] on the 64-bit targets of the client: the value [z] wraps
    around to. *)
Definition wrap_int (z : Z) : Z := ((z + 2 ^ 63) `mod` 2 ^ 64 - 2 ^ 63)%Z.

Definition MsgTypeSize : string := "size".
Definition MsgTypeFrame : string := "frame".

(** [type Message struct { Type; Width; Height; Frame }] *)
Record Message := mkMessage {
  Type_ : string;
  Width : Z;
  Height : Z;
  Frame : string
}.

(** The variables [width], [height], [lastW] and [lastH] of [main]. *)
Record Screen := mkScreen {
  width : Z;
  height : Z;
  lastW : Z;
  lastH : Z
}.

(** The start of [main]: 80 by 40 unless the output is a terminal whose size
    can be read, then [lastW, lastH := width, height]. *)
Definition start_screen (is_terminal : bool) (size : option (Z * Z)) : Screen :=
  let '(w0, h0) :=
    match is_terminal, size with
    | true, Some (w, h) => (wrap_int (w - 1), wrap_int (h - 1))
    | _, _ => (80, 40)%Z
    end in
  mkScreen w0 h0 w0 h0.

(** [for _, msg := range msgs { ...; ws.WriteMessage(...) }]: [oks] tells,
    write after write, whether [WriteMessage] succeeded (an answer that is
    missing counts as a success).  Returns the messages written and whether
    [main] goes on; it returns at the first failed write. *)
Fixpoint send_all (msgs : list Message) (oks : list bool)
    : list Message * bool :=
  match msgs with
  | [] => ([], true)
  | msg :: rest =>
      if default true (head oks)
      then let '(sent, alive) := send_all rest (tail oks) in (msg :: sent, alive)
      else ([], false)
  end.

(** One iteration of the loop of [main]: [captured] tells whether the webcam
    gave a non-empty image, [size] is what [term.GetSize] returned, and
    [render w h] is [processFrame(img, w, h, *color)] for that image.
    Returns the messages written and the variables, or [None] when [main]
    has returned. *)
Definition frame_tick (st : Screen) (captured : bool) (size : option (Z * Z))
    (render : Z → Z → string) (oks : list bool)
    : list Message * option Screen :=
  if captured then
    let st1 :=
      match size with
      | Some (w, h) =>
          mkScreen (wrap_int (w - 1)) (wrap_int (h - 1)) (lastW st) (lastH st)
      | None => st
      end in
    let frame := mkMessage MsgTypeFrame 0 0 (render (width st1) (height st1)) in
    let '(msgs, st2) :=
      if decide (width st1 ≠ lastW st1 ∨ height st1 ≠ lastH st1)
      then ([frame; mkMessage MsgTypeSize (width st1) (height st1) ""],
            mkScreen (width st1) (height st1) (width st1) (height st1))
      else ([frame], st1) in
    let '(sent, alive) := send_all msgs oks in
    (sent, if alive then Some st2 else None)
  else ([], Some st).

(** What the receiving goroutine of [main] does with a decoded message: a
    size message overwrites [width] and [height], a frame is printed and
    leaves the variables alone, anything else is ignored. *)
Definition on_message (st : Screen) (msg : Message) : Screen :=
  if decide (Type_ msg = MsgTypeSize)
  then mkScreen (Width msg) (Height msg) (lastW st) (lastH st)
  else st.

(** What happens to the variables of [main]: an iteration of its loop, or a
    message decoded by the receiving goroutine between two iterations.  The
    two goroutines share [width] and [height] without a lock, so a size
    message may in fact land in the middle of an iteration; the properties of
    the loop are stated for runs in which the peer sends no size message,
    where the receiving goroutine never writes the variables. *)
Inductive client_event :=
  | Tick (captured : bool) (size : option (Z * Z)) (render : Z → Z → string)
         (oks : list bool)
  | Incoming (msg : Message).

(** The messages written along [evs], until [main] returns. *)
Fixpoint client_run (st : Screen) (evs : list client_event) : list Message :=
  match evs with
  | [] => []
  | Tick captured size render oks :: rest =>
      match frame_tick st captured size render oks with
      | (sent, Some st1) => sent ++ client_run st1 rest
      | (sent, None) => sent
      end
  | Incoming msg :: rest => client_run (on_message st msg) rest
  end.

(** The variables of [main] after [evs], or [None] once [main] has
    returned. *)
Fixpoint client_end (st : Screen) (evs : list client_event) : option Screen :=
  match evs with
  | [] => Some st
  | Tick captured size render oks :: rest =>
      match frame_tick st captured size render oks with
      | (_, Some st1) => client_end st1 rest
      | (_, None) => None
      end
  | Incoming msg :: rest => client_end (on_message st msg) rest
  end.

(** The size a peer that starts from [init] knows after reading [msgs]:
    the one carried by the last size message. *)
Definition announced (init : Z * Z) (msgs : list Message) : Z * Z :=
  foldl (λ known msg,
           if decide (Type_ msg = MsgTypeSize) then (Width msg, Height msg)
           else known) init msgs.

(** The events of a run during which the terminal keeps the size [w] by [h]
    (or cannot be read) and the peer sends no size message. *)
Definition steady (w h : Z) (ev : client_event) : Prop :=
  match ev with
  | Tick _ size _ _ => size = Some (w, h) ∨ size = None
  | Incoming msg => Type_ msg ≠ MsgTypeSize
  end.

(** The events of a run during which the peer sends no size message. *)
Definition no_remote_size (ev : client_event) : Prop :=
  match ev with
  | Tick _ _ _ _ => True
  | Incoming msg => Type_ msg ≠ MsgTypeSize
  end.

(** ** Sample runs *)

(** The state after the events [evs], from a fresh server. *)
Definition after (evs : list event) : World :=
  default NewServer (run NewServer evs).

Definition frame1 : payload := list_byte_of_string "frame-1".

(** One session, at address 1. *)
Definition room_of_one : World := after [EvConnect true].

(** Two sessions, at addresses 1 and 2. *)
Definition room_of_two : World := after [EvConnect true; EvConnect true].

(** Two sessions; the first has sent 16 frames that the second has not
    written out yet. *)
Definition stalled_room : World :=
  after ([EvConnect true; EvConnect true] ++ replicate 16 (EvRead 1%positive (Some frame1))).

(** Two sessions; the first sends three frames, the second writes two of
    them out, the second write failing. *)
Definition relay_run : list event :=
  [EvRead 1%positive (Some frame1); EvRead 1%positive (Some room_full);
   EvWrite 2%positive false; EvRead 1%positive (Some frame1);
   EvWrite 2%positive true].

Definition relayed_room : World :=
  after ([EvConnect true; EvConnect true] ++ relay_run).

(** A client on a terminal of 81 by 41 that is never resized. *)
Definition quiet_session : list client_event :=
  [Tick true (Some (81, 41)%Z) (λ _ _, "a"%string) [];
   Incoming (mkMessage MsgTypeFrame 0 0 "b");
   Tick true None (λ _ _, "c"%string) [true]].

(** A client whose terminal goes from 81 by 41 to 101 by 31. *)
Definition resized_session : list client_event :=
  [Tick true (Some (81, 41)%Z) (λ _ _, "a"%string) [];
   Tick true (Some (101, 31)%Z) (λ _ _, "b"%string) [true; true];
   Incoming (mkMessage MsgTypeFrame 0 0 "c")].

(** * Properties *)

(** ** Admission: [add] *)

Section registry.
Implicit Types (w : World) (c : ptr).

Lemma add_admits w c :
  size (clients w) < maxClients →
  add w c = (set_clients w (<[c := true]> (clients w)), true).
Proof. intros Hlt. unfold add. case_decide; [lia | done]. Qed.

Lemma add_refuses w c :
  maxClients ≤ size (clients w) → add w c = (w, false).
Proof. intros Hge. unfold add. case_decide; [done | lia]. Qed.

Lemma size_insert_le (m : gmap ptr bool) c b :
  size (<[c := b]> m) ≤ S (size m).
Proof.
  destruct (m !! c) eqn:E.
  - rewrite map_size_insert_Some; [lia | eauto].
  - rewrite map_size_insert_None; [lia | done].
Qed.

Lemma size_delete_le (m : gmap ptr bool) c : size (delete c m) ≤ size m.
Proof.
  destruct (m !! c) eqn:E.
  - rewrite map_size_delete_Some; [lia | eauto].
  - rewrite map_size_delete_None; [lia | done].
Qed.

Lemma add_size w c :
  size (clients w) ≤ maxClients → size (clients (add w c).1) ≤ maxClients.
Proof.
  intros Hle. unfold add. case_decide; simpl; [done |].
  pose proof (size_insert_le (clients w) c true). lia.
Qed.

Lemma remove_clients w c : clients (remove w c).1 = delete c (clients w).
Proof.
  unfold remove; simpl.
  destruct (heap w !! c) as [cl|]; [| done].
  by destruct (close_chan (send cl)).
Qed.

Lemma apply_op_size w op :
  size (clients w) ≤ maxClients → size (clients (apply_op w op)) ≤ maxClients.
Proof.
  intros Hle. destruct op as [c|c]; simpl.
  - by apply add_size.
  - rewrite remove_clients. pose proof (size_delete_le (clients w) c). lia.
Qed.

Lemma trace_ops_size ops : ∀ w,
  size (clients w) ≤ maxClients →
  Forall (λ w', size (clients w') ≤ maxClients) (trace_ops w ops).
Proof.
  induction ops as [|op ops IH]; intros w Hle; simpl; constructor.
  - by apply apply_op_size.
  - apply IH. by apply apply_op_size.
Qed.
End registry.

(** ** Relaying: [broadcast] *)

Section broadcast.
Implicit Types (w : World) (h : gmap ptr Client) (c B sender : ptr).
Implicit Types (msg : payload) (order : list ptr).

Lemma try_send_open (ch : Chan) msg :
  closed ch = false →
  try_send ch msg =
    Some (if decide (length (buf ch) < cap ch)
          then mkChan (buf ch ++ [msg]) (cap ch) false else ch).
Proof.
  intros Hopen. unfold try_send. rewrite Hopen.
  destruct (Nat.ltb_spec (length (buf ch)) (cap ch)); case_decide; done || lia.
Qed.

(** What one pass of the loop does to each client, whatever the order. *)
Lemma broadcast_loop_spec sender msg order : ∀ h,
  NoDup order →
  (∀ c, c ∈ order → c ≠ sender →
     ∃ cl, h !! c = Some cl ∧ closed (send cl) = false) →
  ∃ h', broadcast_loop order sender msg h = (h', Done) ∧
    ∀ B, h' !! B =
      if decide (B ∈ order ∧ B ≠ sender)
      then (λ cl, set_send cl
              (if decide (length (buf (send cl)) < cap (send cl))
               then mkChan (buf (send cl) ++ [msg]) (cap (send cl)) false
               else send cl)) <$> h !! B
      else h !! B.
Proof.
  induction order as [|c rest IH]; intros h Hnd Hopen; cbn [broadcast_loop].
  - exists h. split; [done |]. intros B.
    rewrite decide_False; [done |]. intros [HB _]. by apply elem_of_nil in HB.
  - apply NoDup_cons in Hnd as [Hc Hnd].
    destruct (decide (c = sender)) as [Hs|Hs].
    + destruct (IH h Hnd) as (h' & Hrun & Hh').
      { intros c' Hin. apply Hopen. by right. }
      exists h'. split; [done |]. intros B. rewrite Hh'.
      apply decide_ext. set_solver.
    + destruct (Hopen c) as (cl & Hcl & Hop); [by left | done |].
      rewrite Hcl, (try_send_open _ _ Hop).
      set (ch := if decide (length (buf (send cl)) < cap (send cl))
                 then _ else _).
      destruct (IH (<[c := set_send cl ch]> h) Hnd) as (h' & Hrun & Hh').
      { intros c' Hin Hne. assert (c ≠ c') by (intros ->; done).
        rewrite lookup_insert_ne by done. apply Hopen; [by right | done]. }
      exists h'. split; [done |]. intros B. rewrite Hh'.
      destruct (decide (B = c)) as [->|HBc].
      * rewrite lookup_insert_eq, Hcl. simpl.
        rewrite decide_False by set_solver.
        rewrite decide_True by set_solver. done.
      * rewrite lookup_insert_ne by done.
        apply decide_ext. set_solver.
Qed.

Lemma order_members w order :
  order ≡ₚ elements (dom (clients w)) →
  NoDup order ∧ ∀ c, c ∈ order ↔ c ∈ dom (clients w).
Proof.
  intros Hp. split.
  - rewrite Hp. apply NoDup_elements.
  - intros c. rewrite Hp. apply elem_of_elements.
Qed.

(** On a state whose members have open queues, [broadcast] returns, and
    touches nothing but the queues of the members other than the sender. *)
Lemma broadcast_in_spec w order sender msg :
  members_open w →
  order ≡ₚ elements (dom (clients w)) →
  ∃ h', broadcast_in order w sender msg = (set_heap w h', Done) ∧
    ∀ B, h' !! B =
      if decide (B ∈ dom (clients w) ∧ B ≠ sender)
      then (λ cl, set_send cl
              (if decide (length (buf (send cl)) < 16)
               then mkChan (buf (send cl) ++ [msg]) 16 false
               else send cl)) <$> heap w !! B
      else heap w !! B.
Proof.
  intros Hopen Hp. destruct (order_members w order Hp) as [Hnd Hin].
  destruct (broadcast_loop_spec sender msg order (heap w) Hnd)
    as (h' & Hrun & Hh').
  { intros c Hc _. apply Hin, Hopen in Hc as (cl & ? & ? & ?). eauto. }
  exists h'. unfold broadcast_in. rewrite Hrun. split; [done |].
  intros B. rewrite Hh'.
  destruct (decide (B ∈ order ∧ B ≠ sender)) as [[HB Hne]|Hno].
  - apply Hin in HB. rewrite decide_True by done.
    destruct (Hopen B HB) as (cl & -> & _ & Hcap). simpl. by rewrite Hcap.
  - rewrite decide_False; [done |]. rewrite <- Hin. done.
Qed.

(** The order in which the members are visited does not show. *)
Lemma broadcast_in_any_order w order sender msg :
  members_open w →
  order ≡ₚ elements (dom (clients w)) →
  broadcast_in order w sender msg = broadcast w sender msg.
Proof.
  intros Hopen Hp.
  destruct (broadcast_in_spec w order sender msg Hopen Hp) as (h1 & -> & H1).
  destruct (broadcast_in_spec w _ sender msg Hopen (reflexivity _))
    as (h2 & E2 & H2).
  unfold broadcast. rewrite E2. do 2 f_equal.
  apply map_eq. intros B. by rewrite H1, H2.
Qed.
End broadcast.

(** ** The acceptor and the two loops, one step at a time *)

Section steps.
Implicit Types (w : World) (c : ptr) (cl : Client).

Lemma new_ptr_fresh w : heap w !! new_ptr w = None.
Proof. apply not_elem_of_dom. unfold new_ptr. apply is_fresh. Qed.

Lemma handleWS_admit w :
  size (clients w) < maxClients →
  handleWS w true =
    mkWorld (<[new_ptr w := true]> (clients w))
            (<[new_ptr w := mkClient (mkConn [] false) (make_chan 16)]> (heap w))
            ({[new_ptr w]} ∪ readers w) ({[new_ptr w]} ∪ writers w).
Proof.
  intros Hlt. unfold handleWS.
  rewrite add_admits by done. done.
Qed.

Lemma handleWS_reject w :
  maxClients ≤ size (clients w) →
  handleWS w true =
    set_heap w
      (<[new_ptr w := mkClient (mkConn [(TextMessage, room_full)] true)
                               (make_chan 16)]> (heap w)).
Proof.
  intros Hge. unfold handleWS.
  rewrite add_refuses by done. cbn.
  unfold set_heap; cbn. by rewrite insert_insert_eq.
Qed.

Lemma remove_open w c cl :
  heap w !! c = Some cl → closed (send cl) = false →
  remove w c =
    (mkWorld (delete c (clients w))
             (<[c := mkClient (conn cl) (mkChan (buf (send cl)) (cap (send cl)) true)]>
                (heap w))
             (readers w) (writers w), Done).
Proof.
  intros Hcl Hopen. unfold remove. cbn. rewrite Hcl.
  unfold close_chan. by rewrite Hopen.
Qed.

Lemma remove_closed w c cl :
  heap w !! c = Some cl → closed (send cl) = true →
  remove w c = (set_clients w (delete c (clients w)), Panicked).
Proof.
  intros Hcl Hclosed. unfold remove. cbn. rewrite Hcl.
  unfold close_chan. by rewrite Hclosed.
Qed.

Lemma reader_exit_open w c cl :
  heap w !! c = Some cl → closed (send cl) = false →
  reader_exit w c =
    (mkWorld (delete c (clients w))
             (<[c := mkClient (Close (conn cl))
                              (mkChan (buf (send cl)) (cap (send cl)) true)]>
                (heap w))
             (readers w ∖ {[c]}) (writers w), Done).
Proof.
  intros Hcl Hopen. unfold reader_exit.
  rewrite (remove_open w c cl) by done.
  unfold close_conn. cbn. rewrite lookup_insert_eq.
  unfold set_heap, set_readers. cbn. by rewrite insert_insert_eq.
Qed.

Lemma Inv_members_open w : Inv w → members_open w.
Proof.
  intros HI c Hc. rewrite (inv_readers w HI) in Hc.
  destruct (inv_open w HI c Hc) as (cl & Hcl & Hopen).
  exists cl. split_and!; [done | done |].
  by apply (inv_queue w HI c cl).
Qed.

Lemma Inv_start : Inv NewServer.
Proof.
  split; cbn.
  - rewrite map_size_empty. unfold maxClients. lia.
  - by rewrite dom_empty_L.
  - intros c Hc. by apply not_elem_of_empty in Hc.
  - intros c cl Hcl. by rewrite lookup_empty in Hcl.
  - apply empty_subseteq.
Qed.

Lemma Inv_members_allocated w c :
  Inv w → c ∈ dom (clients w) → is_Some (heap w !! c).
Proof.
  intros HI Hc. destruct (Inv_members_open w HI c Hc) as (cl & -> & _). eauto.
Qed.

Lemma new_ptr_not_member w : Inv w → clients w !! new_ptr w = None.
Proof.
  intros HI. apply not_elem_of_dom. intros Hc.
  apply (Inv_members_allocated w _ HI) in Hc as [cl Hcl].
  by rewrite new_ptr_fresh in Hcl.
Qed.

Lemma Inv_handleWS w upgraded : Inv w → Inv (handleWS w upgraded).
Proof.
  intros HI. destruct upgraded; [| done].
  pose proof (new_ptr_fresh w) as Hfresh.
  destruct (decide (size (clients w) < maxClients)) as [Hlt|Hge].
  - rewrite handleWS_admit by done. split; cbn.
    + rewrite map_size_insert_None by by apply new_ptr_not_member. lia.
    + rewrite dom_insert_L. by rewrite (inv_readers w HI).
    + intros c [->%elem_of_singleton|Hc]%elem_of_union.
      * rewrite lookup_insert_eq. eauto.
      * destruct (inv_open w HI c Hc) as (cl & Hcl & Hopen).
        rewrite lookup_insert_ne by congruence. eauto.
    + intros c cl. rewrite lookup_insert. case_decide.
      * intros [= <-]. cbn. lia.
      * apply (inv_queue w HI).
    + rewrite dom_insert_L. pose proof (inv_writers w HI). set_solver.
  - rewrite handleWS_reject by lia. split; cbn.
    + apply (inv_size w HI).
    + apply (inv_readers w HI).
    + intros c Hc. destruct (inv_open w HI c Hc) as (cl & Hcl & Hopen).
      rewrite lookup_insert_ne by congruence. eauto.
    + intros c cl. rewrite lookup_insert. case_decide.
      * intros [= <-]. cbn. lia.
      * apply (inv_queue w HI).
    + rewrite dom_insert_L. pose proof (inv_writers w HI). set_solver.
Qed.

Lemma Inv_reader_exit w c :
  Inv w → c ∈ readers w →
  ∃ w', reader_exit w c = (w', Done) ∧ Inv w'.
Proof.
  intros HI Hc. destruct (inv_open w HI c Hc) as (cl & Hcl & Hopen).
  rewrite (reader_exit_open w c cl) by done.
  eexists; split; [done |]. split; cbn.
  - pose proof (size_delete_le (clients w) c). pose proof (inv_size w HI). lia.
  - rewrite dom_delete_L. by rewrite (inv_readers w HI).
  - intros c' [Hc' Hne%not_elem_of_singleton]%elem_of_difference.
    destruct (inv_open w HI c' Hc') as (cl' & Hcl' & Hopen').
    rewrite lookup_insert_ne by done. eauto.
  - intros c' cl'. rewrite lookup_insert. case_decide.
    + intros [= <-]. cbn. apply (inv_queue w HI c cl Hcl).
    + apply (inv_queue w HI).
  - rewrite dom_insert_L. pose proof (inv_writers w HI). set_solver.
Qed.
End steps.

(** ** The invariant along every run *)

Section invariant.
Implicit Types (w : World) (c : ptr) (cl : Client) (msg : payload).

Lemma Inv_broadcast w c msg :
  Inv w →
  ∃ h', broadcast w c msg = (set_heap w h', Done) ∧ Inv (set_heap w h').
Proof.
  intros HI. pose proof (Inv_members_open w HI) as Hopen.
  destruct (broadcast_in_spec w _ c msg Hopen (reflexivity _))
    as (h' & Hrun & Hh').
  exists h'. split; [done |].
  assert (Hkeep : ∀ B cl', h' !! B = Some cl' →
    ∃ cl0, heap w !! B = Some cl0 ∧ closed (send cl') = closed (send cl0) ∧
           cap (send cl') = 16 ∧ length (buf (send cl')) ≤ 16).
  { intros B cl'. rewrite Hh'.
    destruct (heap w !! B) as [cl0|] eqn:E; [| by case_decide].
    destruct (inv_queue w HI B cl0 E) as [Hcap Hlen].
    destruct (decide (B ∈ dom (clients w) ∧ B ≠ c)) as [[HB _]|_].
    - destruct (Hopen B HB) as (cl1 & Hcl1 & Hop & _).
      assert (cl1 = cl0) as -> by congruence.
      cbn. intros [= <-]. exists cl0. case_decide; cbn.
      + rewrite length_app. cbn. split_and!; [done | by rewrite Hop | done | lia].
      + done.
    - intros [= <-]. eauto. }
  split; cbn.
  - apply (inv_size w HI).
  - apply (inv_readers w HI).
  - intros B HB. destruct (inv_open w HI B HB) as (cl0 & Hcl0 & Hop).
    destruct (h' !! B) as [cl'|] eqn:E.
    + destruct (Hkeep B cl' E) as (cl1 & Hcl1 & Hsame & _).
      exists cl'. split; [done |]. congruence.
    + rewrite Hh', Hcl0 in E. by case_decide.
  - intros B cl' E. destruct (Hkeep B cl' E) as (_ & _ & _ & ? & ?). done.
  - intros B HB. apply (inv_writers w HI), elem_of_dom in HB as [cl0 Hcl0].
    apply elem_of_dom. rewrite Hh', Hcl0. case_decide; cbn; eauto.
Qed.

Lemma Inv_reader_step w c r :
  Inv w → c ∈ readers w →
  ∃ w', reader_step w c r = (w', Done) ∧ Inv w'.
Proof.
  intros HI Hc. destruct r as [msg|]; cbn.
  - destruct (Inv_broadcast w c msg HI) as (h' & -> & HI'). eauto.
  - by apply Inv_reader_exit.
Qed.

Lemma Inv_writer_step w c neterr w' got :
  Inv w → writer_step w c neterr = Some (w', got) → Inv w'.
Proof.
  intros HI. unfold writer_step.
  destruct (heap w !! c) as [cl|] eqn:Hcl; [| done].
  destruct (inv_queue w HI c cl Hcl) as [Hcap Hlen].
  destruct (buf (send cl)) as [|msg rest] eqn:Hbuf.
  - destruct (closed (send cl)); [| done]. intros [= <- <-].
    destruct HI as [H1 H2 H3 H4 H5]. split; cbn; try done. set_solver.
  - destruct (WriteMessage _ _ _ _) as [cn err]. intros [= <- <-].
    assert (Inv (set_heap w
      (<[c := mkClient cn (mkChan rest (cap (send cl)) (closed (send cl)))]>
         (heap w)))) as HI'.
    { split; cbn.
      - apply (inv_size w HI).
      - apply (inv_readers w HI).
      - intros c' Hc'. destruct (inv_open w HI c' Hc') as (cl' & Hcl' & Hop).
        rewrite lookup_insert. case_decide as E.
        + subst c'. assert (cl' = cl) as -> by congruence. eauto.
        + eauto.
      - intros c' cl'. rewrite lookup_insert. case_decide.
        + intros [= <-]. cbn in *. split; [done | lia].
        + apply (inv_queue w HI).
      - rewrite dom_insert_L. pose proof (inv_writers w HI). set_solver. }
    destruct err; [| done].
    destruct HI' as [H1 H2 H3 H4 H5]. split; cbn in *; try done. set_solver.
Qed.

(** No step of the process panics, and every step keeps the invariant. *)
Lemma Inv_exec w ev w' o :
  Inv w → exec w ev = Some (w', o) → o = Done ∧ Inv w'.
Proof.
  intros HI. destruct ev as [upgraded|c r|c neterr]; cbn.
  - intros [= <- <-]. split; [done |]. by apply Inv_handleWS.
  - case_decide as Hc; [| done].
    destruct (Inv_reader_step w c r HI Hc) as (w1 & -> & HI1).
    by intros [= <- <-].
  - case_decide as Hc; [| done].
    destruct (writer_step w c neterr) as [[w1 got]|] eqn:E; [| done].
    cbn. intros [= <- <-]. split; [done |]. by eapply Inv_writer_step.
Qed.

Lemma reachable_Inv w : reachable w → Inv w.
Proof.
  induction 1 as [|w ev w' o _ IH Hstep]; [apply Inv_start |].
  by apply (Inv_exec w ev w' o).
Qed.

Lemma Inv_run evs : ∀ w w', Inv w → run w evs = Some w' → Inv w'.
Proof.
  induction evs as [|ev evs IH]; intros w w' HI; cbn.
  - by intros [= <-].
  - destruct (exec w ev) as [[w1 o]|] eqn:E; [| done].
    apply IH. by apply (Inv_exec w ev w1 o).
Qed.

Lemma reachable_run evs : ∀ w w',
  reachable w → run w evs = Some w' → reachable w'.
Proof.
  induction evs as [|ev evs IH]; intros w w' Hr; cbn.
  - by intros [= <-].
  - destruct (exec w ev) as [[w1 o]|] eqn:E; [| done].
    apply IH. by apply (reach_step w ev w1 o).
Qed.
(** A client with no loop running is never touched again. *)
Lemma idle_client_exec w ev w' o c cl :
  Inv w → heap w !! c = Some cl → c ∉ readers w → c ∉ writers w →
  exec w ev = Some (w', o) →
  heap w' !! c = Some cl ∧ (c ∉ readers w') ∧ (c ∉ writers w').
Proof.
  intros HI Hcl Hr Hw. destruct ev as [upgraded|c' r|c' neterr]; cbn.
  - intros [= <- <-]. destruct upgraded; [| done].
    assert (new_ptr w ≠ c) as Hne.
    { intros E. pose proof (new_ptr_fresh w) as Hf. rewrite E in Hf. congruence. }
    destruct (decide (size (clients w) < maxClients)).
    + rewrite handleWS_admit by done. cbn.
      rewrite lookup_insert_ne by done. set_solver.
    + rewrite handleWS_reject by lia. cbn. by rewrite lookup_insert_ne.
  - case_decide as Hc'; [| done]. assert (c' ≠ c) as Hne by congruence.
    intros [= E]. destruct r as [msg|]; cbn in E.
    + destruct (broadcast_in_spec w _ c' msg (Inv_members_open w HI)
                  (reflexivity _)) as (h' & Hrun & Hh').
      unfold broadcast in E. rewrite Hrun in E. injection E as <- <-. cbn.
      split; [| done]. rewrite Hh', decide_False; [done |].
      intros [Hin _]. by rewrite (inv_readers w HI) in Hin.
    + destruct (inv_open w HI c' Hc') as (cl' & Hcl' & Hopen).
      rewrite (reader_exit_open w c' cl') in E by done.
      injection E as <- <-. cbn. rewrite lookup_insert_ne by done. set_solver.
  - case_decide as Hc'; [| done]. assert (c' ≠ c) as Hne by congruence.
    unfold writer_step. destruct (heap w !! c') as [cl'|]; [| done].
    destruct (buf (send cl')) as [|msg rest].
    + destruct (closed (send cl')); [| done]. cbn. intros [= <- <-]. cbn.
      set_solver.
    + destruct (WriteMessage _ _ _ _) as [cn err]. cbn. intros [= <- <-].
      destruct err; cbn; rewrite lookup_insert_ne by done; set_solver.
Qed.

Lemma idle_client_run evs : ∀ w w' c cl,
  Inv w → heap w !! c = Some cl → c ∉ readers w → c ∉ writers w →
  run w evs = Some w' →
  heap w' !! c = Some cl ∧ (c ∉ readers w') ∧ (c ∉ writers w').
Proof.
  induction evs as [|ev evs IH]; intros w w' c cl HI Hcl Hr Hw; cbn.
  - by intros [= <-].
  - destruct (exec w ev) as [[w1 o]|] eqn:E; [| done].
    destruct (idle_client_exec w ev w1 o c cl HI Hcl Hr Hw E) as (? & ? & ?).
    apply IH; try done. by apply (Inv_exec w ev w1 o).
Qed.
End invariant.

(** ** Ordering of what a peer receives *)

Section ordering.
Implicit Types (w : World) (c A B : ptr) (msg : payload) (evs : list event).

Lemma queue_set_heap_insert_ne w c cl B :
  c ≠ B → queue (set_heap w (<[c := cl]> (heap w))) B = queue w B.
Proof. intros Hne. unfold queue. cbn. by rewrite lookup_insert_ne. Qed.

(** A broadcast leaves the queue of [B] alone or appends the message. *)
Lemma broadcast_queue w c msg B w1 o :
  Inv w → broadcast w c msg = (w1, o) →
  if decide (c = B) then queue w1 B = queue w B
  else queue w1 B = queue w B ∨ queue w1 B = queue w B ++ [msg].
Proof.
  intros HI Hrun.
  destruct (broadcast_in_spec w _ c msg (Inv_members_open w HI) (reflexivity _))
    as (h' & Hrun' & Hh').
  unfold broadcast in Hrun. rewrite Hrun' in Hrun.
  injection Hrun as <- <-. unfold queue. cbn. rewrite Hh'.
  destruct (heap w !! B) as [cl|] eqn:E.
  - destruct (decide (c = B)) as [->|Hne].
    + rewrite decide_False; [done |]. by intros [_ ?].
    + destruct (decide (B ∈ dom (clients w) ∧ B ≠ c)); cbn; [| by left].
      case_decide; cbn; [by right | by left].
  - destruct (decide (B ∈ dom (clients w) ∧ B ≠ c)); cbn; by case_decide; try left.
Qed.

Lemma reader_exit_queue w c B w1 o :
  Inv w → c ∈ readers w → reader_exit w c = (w1, o) → queue w1 B = queue w B.
Proof.
  intros HI Hc. destruct (inv_open w HI c Hc) as (cl & Hcl & Hopen).
  rewrite (reader_exit_open w c cl) by done. intros [= <- <-].
  unfold queue. cbn. rewrite lookup_insert. case_decide; [| done].
  subst B. by rewrite Hcl.
Qed.

Lemma handleWS_queue w upgraded B :
  queue (handleWS w upgraded) B = queue w B.
Proof.
  destruct upgraded; [| done].
  pose proof (new_ptr_fresh w) as Hfresh.
  assert (∀ cl, buf (send cl) = [] →
    match <[new_ptr w := cl]> (heap w) !! B with
    | Some cl' => buf (send cl') | None => []
    end = queue w B) as Hq.
  { intros cl Hcl. unfold queue. rewrite lookup_insert. case_decide; [| done].
    subst B. by rewrite Hfresh. }
  destruct (decide (size (clients w) < maxClients)).
  - rewrite handleWS_admit by done. by apply Hq.
  - rewrite handleWS_reject by lia. by apply Hq.
Qed.

(** The writer of [B] takes the head of the queue; another writer leaves
    the queue of [B] alone. *)
Lemma writer_step_queue w c neterr w1 got B :
  writer_step w c neterr = Some (w1, got) →
  queue w1 B = if decide (c = B) then tail (queue w B) else queue w B.
Proof.
  unfold writer_step, queue.
  destruct (heap w !! c) as [cl|] eqn:Hcl; [| done].
  destruct (buf (send cl)) as [|msg rest] eqn:Hbuf.
  - destruct (closed (send cl)); [| done]. intros [= <- <-]. cbn.
    case_decide; [| done]. subst B. by rewrite Hcl, Hbuf.
  - destruct (WriteMessage _ _ _ _) as [cn err]. intros [= <- <-].
    assert (heap (if err
              then set_writers (set_heap w (<[c := mkClient cn
                     (mkChan rest (cap (send cl)) (closed (send cl)))]> (heap w)))
                     (writers w ∖ {[c]})
              else set_heap w (<[c := mkClient cn
                     (mkChan rest (cap (send cl)) (closed (send cl)))]> (heap w)))
            = <[c := mkClient cn
                     (mkChan rest (cap (send cl)) (closed (send cl)))]> (heap w))
      as -> by by destruct err.
    rewrite lookup_insert. case_decide; [| done].
    subst B. by rewrite Hcl, Hbuf.
Qed.

(** Along any run, what the writer of [B] has taken, followed by what is
    still queued, is a subsequence of what was queued at the start followed
    by what the others broadcast, in order. *)
Lemma delivery_in_order evs : ∀ w w' B,
  Inv w → run w evs = Some w' →
  consumed B w evs ++ queue w' B `sublist_of` queue w B ++ offered_to B evs.
Proof.
  induction evs as [|ev evs IH]; intros w w' B HI; cbn.
  - intros [= <-]. by rewrite app_nil_r.
  - destruct (exec w ev) as [[w1 o]|] eqn:E; [| done]. intros Hrun.
    destruct (Inv_exec w ev w1 o HI E) as [_ HI1].
    specialize (IH w1 w' B HI1 Hrun).
    destruct ev as [upgraded|c r|c neterr]; cbn in E.
    + injection E as <- <-. by rewrite handleWS_queue in IH.
    + case_decide as Hc; [| done]. injection E as E.
      destruct r as [msg|]; cbn in E.
      * destruct (Inv_broadcast w c msg HI) as (h' & Hb & _).
        rewrite Hb in E. injection E as <- <-.
        pose proof (broadcast_queue w c msg B _ _ HI Hb) as Hq.
        destruct (decide (c = B)) as [->|Hne].
        -- by rewrite Hq in IH.
        -- destruct Hq as [Hq|Hq]; rewrite Hq in IH.
           ++ etrans; [exact IH |]. apply sublist_app; [done |].
              by apply sublist_cons.
           ++ by rewrite <- app_assoc in IH.
      * by rewrite (reader_exit_queue w c B w1 o HI Hc E) in IH.
    + case_decide as Hc; [| done].
      destruct (writer_step w c neterr) as [[w2 got]|] eqn:Hw; [| done].
      cbn in E. injection E as <- <-.
      rewrite (writer_step_queue w c neterr w2 got B Hw) in IH.
      destruct (decide (c = B)) as [->|Hne]; [| done].
      destruct (queue w B) as [|msg rest]; [done |].
      cbn in *. by apply sublist_skip.
Qed.

Lemma offered_only_sender A B evs :
  A ≠ B →
  (∀ c msg, EvRead c (Some msg) ∈ evs → c = A ∨ c = B) →
  offered_to B evs = sent_by A evs.
Proof.
  intros Hne. induction evs as [|ev evs IH]; intros Honly; [done |].
  assert (offered_to B evs = sent_by A evs) as IH'.
  { apply IH. intros c msg Hin. apply (Honly c msg). by right. }
  destruct ev as [upgraded|c [msg|]|c neterr]; cbn; try done.
  destruct (Honly c msg) as [->| ->]; [by left | |].
  - rewrite decide_False by done. rewrite decide_True by done. by f_equal.
  - rewrite decide_True by done. rewrite decide_False by done. done.
Qed.
End ordering.

(** * The properties of the relay *)

Section samples.
Lemma after_reachable evs : reachable (after evs).
Proof.
  unfold after. destruct (run NewServer evs) as [w|] eqn:E; cbn.
  - by apply (reachable_run evs NewServer w); [apply reach_start |].
  - apply reach_start.
Qed.

Lemma after_Inv evs : Inv (after evs).
Proof. apply reachable_Inv, after_reachable. Qed.

Lemma room_of_two_members : elements (dom (clients room_of_two)) = [2; 1]%positive.
Proof. by vm_compute. Qed.
End samples.

(** C7. [add] returns true and inserts the session exactly when fewer than
    two sessions are registered; with two or more it returns false and leaves
    the whole state, membership included, as it was. *)
Theorem add_admits_below_capacity (w : World) (c : ptr) :
  (size (clients w) < 2 →
     add w c = (set_clients w (<[c := true]> (clients w)), true) ∧
     c ∈ dom (clients (add w c).1)) ∧
  (2 ≤ size (clients w) → add w c = (w, false)) ∧
  ((add w c).2 = true ↔ size (clients w) < 2).
Proof.
  split_and!.
  - intros Hlt. rewrite add_admits by done. split; [done |]. cbn.
    rewrite dom_insert_L. set_solver.
  - apply add_refuses.
  - unfold add, maxClients. case_decide; cbn; split; (done || lia).
Qed.

Lemma add_admits_below_capacity_witness :
  (size (clients room_of_one) < 2 →
     add room_of_one 5 =
       (set_clients room_of_one (<[5%positive := true]> (clients room_of_one)), true) ∧
     5%positive ∈ dom (clients (add room_of_one 5).1)) ∧
  (2 ≤ size (clients room_of_two) → add room_of_two 5 = (room_of_two, false)) ∧
  size (clients room_of_one) < 2 ∧ 2 ≤ size (clients room_of_two).
Proof.
  split_and!.
  - apply (add_admits_below_capacity room_of_one 5).
  - apply (add_admits_below_capacity room_of_two 5).
  - vm_compute. lia.
  - vm_compute. lia.
Defined.

(** C2. Whatever sequence of [add] and [remove] calls is made on a new
    registry, the membership set never has more than two members, and the
    same holds in every state the running server reaches; [add] inserts
    nothing when two are registered. *)
Theorem membership_never_exceeds_two (ops : list reg_op) :
  Forall (λ w, size (clients w) ≤ 2) (trace_ops NewServer ops) ∧
  (∀ w, reachable w → size (clients w) ≤ 2) ∧
  (∀ w c, size (clients w) = 2 → add w c = (w, false)).
Proof.
  split_and!.
  - apply (trace_ops_size ops NewServer). apply (inv_size _ Inv_start).
  - intros w Hw. apply (inv_size w), reachable_Inv, Hw.
  - intros w c Hfull. apply add_refuses. unfold maxClients. lia.
Qed.

Lemma membership_never_exceeds_two_witness :
  size (clients room_of_two) = 2 ∧ add room_of_two 7 = (room_of_two, false) ∧
  reachable stalled_room ∧ size (clients stalled_room) ≤ 2 ∧
  Forall (λ w, size (clients w) ≤ 2)
    (trace_ops NewServer [OpAdd 1; OpAdd 2; OpAdd 3; OpRemove 1; OpAdd 4; OpAdd 5]).
Proof.
  assert (size (clients room_of_two) = 2) as Hfull by (by vm_compute).
  assert (reachable stalled_room) as Hreach by apply after_reachable.
  pose proof (membership_never_exceeds_two
    [OpAdd 1; OpAdd 2; OpAdd 3; OpRemove 1; OpAdd 4; OpAdd 5])%positive
    as (Htrace & Hsys & Hadd).
  split_and!.
  - exact Hfull.
  - exact (Hadd room_of_two 7%positive Hfull).
  - exact Hreach.
  - exact (Hsys stalled_room Hreach).
  - exact Htrace.
Defined.

(** C10. The origin check of the upgrader accepts every request, whatever
    its [Origin] header. *)
Theorem check_origin_accepts_all (r : Request) : CheckOrigin upgrader r = true.
Proof. reflexivity. Qed.

(** C1. [broadcast sender msg] returns without a panic and, for every
    session [B], appends [msg] to the queue of [B] if and only if [B] is
    registered, is not the sender and has fewer than 16 messages queued;
    otherwise the client of [B], queue included, is exactly as before.  In
    particular a full queue swallows the message and the sender gets nothing.
    This holds for every order in which the runtime visits the map. *)
Theorem broadcast_delivers_iff (w : World) (order : list ptr) (sender : ptr)
    (msg : payload) :
  members_open w →
  order ≡ₚ elements (dom (clients w)) →
  ∃ h', broadcast_in order w sender msg = (set_heap w h', Done) ∧
    ∀ B cl, heap w !! B = Some cl →
      ∃ cl', h' !! B = Some cl' ∧
        cl' = (if decide (B ∈ dom (clients w) ∧ B ≠ sender ∧
                          length (buf (send cl)) < 16)
               then set_send cl (mkChan (buf (send cl) ++ [msg]) 16 false)
               else cl) ∧
        (buf (send cl') = buf (send cl) ++ [msg] ↔
           B ∈ dom (clients w) ∧ B ≠ sender ∧ length (buf (send cl)) < 16).
Proof.
  intros Hopen Hp.
  destruct (broadcast_in_spec w order sender msg Hopen Hp) as (h' & Hrun & Hh').
  exists h'. split; [done |]. intros B cl Hcl.
  assert (h' !! B = Some
    (if decide (B ∈ dom (clients w) ∧ B ≠ sender ∧ length (buf (send cl)) < 16)
     then set_send cl (mkChan (buf (send cl) ++ [msg]) 16 false) else cl)) as E.
  { rewrite Hh', Hcl.
    destruct (decide (B ∈ dom (clients w) ∧ B ≠ sender)) as [[? ?]|Hno]; cbn.
    - destruct (decide (length (buf (send cl)) < 16)).
      + by rewrite decide_True.
      + rewrite decide_False by (intros (_ & _ & ?); done). by destruct cl.
    - rewrite decide_False; [done |]. intros (? & ? & _). by apply Hno. }
  eexists. split; [exact E |]. split; [done |].
  case_decide as Hd; cbn.
  - done.
  - split; [| done]. intros Heq. apply (f_equal length) in Heq.
    rewrite length_app in Heq. cbn in Heq. lia.
Qed.

Lemma broadcast_delivers_iff_witness :
  members_open room_of_two ∧
  [1; 2]%positive ≡ₚ elements (dom (clients room_of_two)) ∧
  ∃ h', broadcast_in [1; 2]%positive room_of_two 1 frame1
          = (set_heap room_of_two h', Done) ∧
    ∀ B cl, heap room_of_two !! B = Some cl →
      ∃ cl', h' !! B = Some cl' ∧
        cl' = (if decide (B ∈ dom (clients room_of_two) ∧ B ≠ 1%positive ∧
                          length (buf (send cl)) < 16)
               then set_send cl (mkChan (buf (send cl) ++ [frame1]) 16 false)
               else cl) ∧
        (buf (send cl') = buf (send cl) ++ [frame1] ↔
           B ∈ dom (clients room_of_two) ∧ B ≠ 1%positive ∧
           length (buf (send cl)) < 16).
Proof.
  assert (members_open room_of_two) as Hopen
    by apply Inv_members_open, after_Inv.
  assert ([1; 2]%positive ≡ₚ elements (dom (clients room_of_two))) as Hp
    by (rewrite room_of_two_members; apply perm_swap).
  split_and!; [exact Hopen | exact Hp |].
  exact (broadcast_delivers_iff room_of_two [1; 2]%positive 1%positive frame1 Hopen Hp).
Defined.

(** C3. Every queue holds at most 16 messages, before and after a broadcast;
    a broadcast that finds 16 messages queued for [B] returns normally and
    leaves the client of [B] untouched: the same 16 messages in the same
    order, the new one absent. *)
Theorem full_queue_drops_newest (w : World) (order : list ptr)
    (sender B : ptr) (msg : payload) (cl : Client) :
  Inv w →
  order ≡ₚ elements (dom (clients w)) →
  heap w !! B = Some cl →
  length (buf (send cl)) ≤ 16 ∧
  ∃ w', broadcast_in order w sender msg = (w', Done) ∧
    length (queue w' B) ≤ 16 ∧
    (length (buf (send cl)) = 16 →
       heap w' !! B = Some cl ∧ queue w' B = buf (send cl)).
Proof.
  intros HI Hp Hcl.
  pose proof (Inv_members_open w HI) as Hopen.
  destruct (inv_queue w HI B cl Hcl) as [_ Hlen]. split; [done |].
  rewrite (broadcast_in_any_order w order sender msg Hopen Hp).
  destruct (Inv_broadcast w sender msg HI) as (h' & Hrun & HI').
  exists (set_heap w h'). split; [done |].
  destruct (broadcast_in_spec w _ sender msg Hopen (reflexivity _))
    as (h2 & Hrun2 & Hh2).
  unfold broadcast in Hrun. rewrite Hrun2 in Hrun. injection Hrun as <-.
  split.
  - unfold queue. destruct (heap (set_heap w h2) !! B) as [cl'|] eqn:E; [| cbn; lia].
    by apply (inv_queue _ HI' B cl' E).
  - intros Hfull. unfold queue. cbn. rewrite Hh2, Hcl.
    destruct (decide (B ∈ dom (clients w) ∧ B ≠ sender)); [| done].
    cbn. rewrite decide_False by lia. by destruct cl.
Qed.

Lemma full_queue_drops_newest_witness :
  Inv stalled_room ∧
  [1; 2]%positive ≡ₚ elements (dom (clients stalled_room)) ∧
  heap stalled_room !! 2%positive
    = Some (mkClient (mkConn [] false) (mkChan (replicate 16 frame1) 16 false)) ∧
  ∃ w', broadcast_in [1; 2]%positive stalled_room 1 room_full = (w', Done) ∧
    length (queue w' 2) ≤ 16 ∧
    (length (replicate 16 frame1) = 16 →
       heap w' !! 2%positive
         = Some (mkClient (mkConn [] false) (mkChan (replicate 16 frame1) 16 false)) ∧
       queue w' 2 = replicate 16 frame1).
Proof.
  assert (Inv stalled_room) as HI by apply after_Inv.
  assert ([1; 2]%positive ≡ₚ elements (dom (clients stalled_room))) as Hp.
  { replace (elements (dom (clients stalled_room))) with [2; 1]%positive
      by (by vm_compute). apply perm_swap. }
  assert (heap stalled_room !! 2%positive
    = Some (mkClient (mkConn [] false) (mkChan (replicate 16 frame1) 16 false)))
    as Hcl by (by vm_compute).
  split_and!; [exact HI | exact Hp | exact Hcl |].
  exact (proj2 (full_queue_drops_newest stalled_room [1; 2]%positive 1%positive
                  2%positive room_full _ HI Hp Hcl)).
Defined.

(** C4, as the code has it.  [remove] deletes the session from the
    membership set, so a second call, or a call on a session that is not
    registered, leaves membership as it is.  The call returns normally
    exactly when the queue of the session is still open; the queue stays
    closed afterwards, so a second call on the same session panics on the
    second [close]. *)
Theorem remove_once_only (w : World) (c : ptr) (cl : Client) :
  heap w !! c = Some cl →
  clients (remove w c).1 = delete c (clients w) ∧
  clients (remove (remove w c).1 c).1 = clients (remove w c).1 ∧
  (c ∉ dom (clients w) → clients (remove w c).1 = clients w) ∧
  ((remove w c).2 = Done ↔ closed (send cl) = false) ∧
  (remove (remove w c).1 c).2 = Panicked.
Proof.
  intros Hcl. split_and!.
  - apply remove_clients.
  - rewrite !remove_clients. by rewrite delete_delete_eq.
  - intros Hc. rewrite remove_clients. apply delete_id. by apply not_elem_of_dom.
  - destruct (closed (send cl)) eqn:E.
    + by rewrite (remove_closed w c cl).
    + by rewrite (remove_open w c cl).
  - destruct (closed (send cl)) eqn:E.
    + rewrite (remove_closed w c cl) by done. cbn.
      by rewrite (remove_closed _ c cl).
    + rewrite (remove_open w c cl) by done. cbn.
      erewrite remove_closed; [done | apply lookup_insert_eq | done].
Qed.

Lemma remove_once_only_witness :
  heap room_of_two !! 1%positive
    = Some (mkClient (mkConn [] false) (make_chan 16)) ∧
  clients (remove (remove room_of_two 1).1 1).1 = clients (remove room_of_two 1).1 ∧
  ((remove room_of_two 1).2 = Done ↔ closed (make_chan 16) = false) ∧
  (remove (remove room_of_two 1).1 1).2 = Panicked.
Proof.
  assert (heap room_of_two !! 1%positive
    = Some (mkClient (mkConn [] false) (make_chan 16))) as Hcl by (by vm_compute).
  pose proof (remove_once_only room_of_two 1%positive _ Hcl) as (_ & H2 & _ & H4 & H5).
  split_and!; [exact Hcl | exact H2 | exact H4 | exact H5].
Defined.

(** C4 as stated fails: on the only session of a room the first [remove]
    returns, and the second one panics. *)
Lemma second_remove_panics :
  (remove room_of_one 1).2 = Done ∧
  (remove (remove room_of_one 1).1 1).2 = Panicked.
Proof. by vm_compute. Qed.

(** C5, as the code has it.  When two sessions are registered, [handleWS]
    builds the [Client] and its 16-slot queue before it asks for admission;
    it then writes one text frame holding the room-full string on the new
    connection and closes it.  The client is not registered, its queue is
    empty and open, neither of its loops is started, and nothing else in the
    state changes.  Whatever the process does next, that client stays exactly
    so: never registered, never run, its queue never written, read or
    closed. *)
Theorem rejected_when_full (w : World) :
  Inv w →
  maxClients ≤ size (clients w) →
  heap w !! new_ptr w = None ∧
  heap (handleWS w true)
    = <[new_ptr w := mkClient (mkConn [(TextMessage, room_full)] true)
                              (mkChan [] 16 false)]> (heap w) ∧
  clients (handleWS w true) = clients w ∧
  readers (handleWS w true) = readers w ∧
  writers (handleWS w true) = writers w ∧
  ∀ evs w', run (handleWS w true) evs = Some w' →
    heap w' !! new_ptr w
      = Some (mkClient (mkConn [(TextMessage, room_full)] true)
                       (mkChan [] 16 false)) ∧
    (new_ptr w ∉ dom (clients w')) ∧
    (new_ptr w ∉ readers w') ∧
    (new_ptr w ∉ writers w').
Proof.
  intros HI Hfull. pose proof (new_ptr_fresh w) as Hfresh.
  pose proof (Inv_handleWS w true HI) as HI'.
  rewrite handleWS_reject in * by done. cbn. split_and!; try done.
  intros evs w' Hrun.
  pose proof (Inv_run evs _ w' HI' Hrun) as HIw'.
  assert (new_ptr w ∉ readers w) as Hr.
  { rewrite <- (inv_readers w HI). apply not_elem_of_dom.
    by apply new_ptr_not_member. }
  assert (new_ptr w ∉ writers w) as Hw.
  { intros Hin. apply (inv_writers w HI), elem_of_dom in Hin as [cl Hcl].
    by rewrite Hfresh in Hcl. }
  destruct (idle_client_run evs _ w' (new_ptr w) _ HI'
              (lookup_insert_eq _ _ _) Hr Hw Hrun) as (H1 & H2 & H3).
  split_and!; try done. by rewrite (inv_readers w' HIw').
Qed.

Lemma rejected_when_full_witness :
  Inv room_of_two ∧ maxClients ≤ size (clients room_of_two) ∧
  heap (handleWS room_of_two true)
    = <[new_ptr room_of_two := mkClient (mkConn [(TextMessage, room_full)] true)
                                        (mkChan [] 16 false)]> (heap room_of_two) ∧
  clients (handleWS room_of_two true) = clients room_of_two ∧
  writers (handleWS room_of_two true) = writers room_of_two ∧
  (new_ptr room_of_two ∉ dom (clients (handleWS room_of_two true))).
Proof.
  assert (Inv room_of_two) as HI by apply after_Inv.
  assert (maxClients ≤ size (clients room_of_two)) as Hfull by (vm_compute; lia).
  pose proof (rejected_when_full room_of_two HI Hfull)
    as (_ & H2 & H3 & _ & H5 & H6).
  split_and!; [exact HI | exact Hfull | exact H2 | exact H3 | exact H5 |].
  exact (proj1 (proj2 (H6 [] _ eq_refl))).
Defined.

(** C5 as stated fails: the third connection of a full room does get a
    [Client], with its queue, allocated at a new address. *)
Lemma rejected_client_is_allocated :
  size (clients room_of_two) = 2 ∧
  heap room_of_two !! 3%positive = None ∧
  heap (handleWS room_of_two true) !! 3%positive
    = Some (mkClient (mkConn [(TextMessage, room_full)] true) (mkChan [] 16 false)).
Proof. by vm_compute. Qed.

(** C6. When the write of the outbound loop fails, the loop ends and that
    is all: the membership set and the set of running inbound loops are
    unchanged, the queue has lost the message just taken but keeps its open
    or closed status, and the connection is not closed by the writer.  So a
    session that was registered with an open queue and a running reader
    still is. *)
Theorem writer_failure_is_local (w : World) (c : ptr) (cl : Client)
    (msg : payload) (rest : list payload) (neterr : bool) :
  heap w !! c = Some cl →
  buf (send cl) = msg :: rest →
  (WriteMessage (conn cl) TextMessage msg neterr).2 = true →
  ∃ w' cl', writer_step w c neterr = Some (w', Some msg) ∧
    (c ∉ writers w') ∧
    clients w' = clients w ∧
    readers w' = readers w ∧
    heap w' = <[c := cl']> (heap w) ∧
    send cl' = mkChan rest (cap (send cl)) (closed (send cl)) ∧
    conn_closed (conn cl') = conn_closed (conn cl) ∧
    (c ∈ dom (clients w) → c ∈ dom (clients w')) ∧
    (closed (send cl) = false → closed (send cl') = false) ∧
    (c ∈ readers w → c ∈ readers w').
Proof.
  intros Hcl Hbuf Herr. unfold writer_step. rewrite Hcl, Hbuf.
  destruct (WriteMessage (conn cl) TextMessage msg neterr) as [cn err] eqn:E.
  cbn in Herr. subst err.
  eexists _, (mkClient cn _). split; [done |]. cbn. split_and!; try done.
  - set_solver.
  - unfold WriteMessage in E.
    destruct (conn_closed (conn cl)) eqn:Hc; inversion E; subst; cbn; congruence.
Qed.

Lemma writer_failure_is_local_witness :
  heap stalled_room !! 2%positive
    = Some (mkClient (mkConn [] false) (mkChan (replicate 16 frame1) 16 false)) ∧
  (WriteMessage (mkConn [] false) TextMessage frame1 true).2 = true ∧
  ∃ w' cl', writer_step stalled_room 2 true = Some (w', Some frame1) ∧
    (2%positive ∉ writers w') ∧
    clients w' = clients stalled_room ∧
    readers w' = readers stalled_room ∧
    heap w' = <[2%positive := cl']> (heap stalled_room) ∧
    send cl' = mkChan (replicate 15 frame1) 16 false ∧
    conn_closed (conn cl') = false ∧
    (2%positive ∈ dom (clients stalled_room) → 2%positive ∈ dom (clients w')) ∧
    (false = false → closed (send cl') = false) ∧
    (2%positive ∈ readers stalled_room → 2%positive ∈ readers w').
Proof.
  assert (heap stalled_room !! 2%positive
    = Some (mkClient (mkConn [] false) (mkChan (replicate 16 frame1) 16 false)))
    as Hcl by (by vm_compute).
  split_and!; [exact Hcl | reflexivity |].
  exact (writer_failure_is_local stalled_room 2%positive _ frame1
           (replicate 15 frame1) true Hcl eq_refl eq_refl).
Defined.

(** C8. A read error in the inbound loop of a running session makes the
    loop run its teardown and nothing else: [remove] returns without a
    panic, having taken the session out of the membership set and closed its
    queue while the connection is still as it was; then the connection is
    closed and the loop is over.  Every other client, every other reader and
    every writer is left as it was. *)
Theorem read_error_tears_down (w : World) (c : ptr) :
  Inv w →
  c ∈ readers w →
  ∃ cl w1 w',
    heap w !! c = Some cl ∧
    remove w c = (w1, Done) ∧
    (c ∉ dom (clients w1)) ∧
    heap w1 !! c
      = Some (mkClient (conn cl) (mkChan (buf (send cl)) (cap (send cl)) true)) ∧
    reader_step w c None = (w', Done) ∧
    w' = set_readers (close_conn w1 c) (readers w ∖ {[c]}) ∧
    clients w' = delete c (clients w) ∧
    heap w'
      = <[c := mkClient (Close (conn cl))
                        (mkChan (buf (send cl)) (cap (send cl)) true)]> (heap w) ∧
    writers w' = writers w ∧
    (∀ B, B ≠ c →
       heap w' !! B = heap w !! B ∧
       (B ∈ dom (clients w') ↔ B ∈ dom (clients w)) ∧
       (B ∈ readers w' ↔ B ∈ readers w)) ∧
    Inv w'.
Proof.
  intros HI Hc. destruct (inv_open w HI c Hc) as (cl & Hcl & Hopen).
  destruct (Inv_reader_exit w c HI Hc) as (w' & Hexit & HI').
  pose proof (reader_exit_open w c cl Hcl Hopen) as Hexit'.
  rewrite Hexit in Hexit'. injection Hexit' as ->.
  eexists cl, _, _. split; [done |].
  split; [by apply remove_open |]. cbn. split_and!; try done.
  - rewrite dom_delete_L. set_solver.
  - apply lookup_insert_eq.
  - unfold close_conn, set_readers, set_heap. cbn.
    rewrite lookup_insert_eq. cbn. by rewrite insert_insert_eq.
  - intros B HB. cbn. split_and!.
    + by rewrite lookup_insert_ne.
    + rewrite dom_delete_L. set_solver.
    + set_solver.
Qed.

Lemma read_error_tears_down_witness :
  Inv room_of_two ∧ 1%positive ∈ readers room_of_two ∧
  ∃ cl w1 w',
    heap room_of_two !! 1%positive = Some cl ∧
    remove room_of_two 1 = (w1, Done) ∧
    (1%positive ∉ dom (clients w1)) ∧
    heap w1 !! 1%positive
      = Some (mkClient (conn cl) (mkChan (buf (send cl)) (cap (send cl)) true)) ∧
    reader_step room_of_two 1 None = (w', Done) ∧
    w' = set_readers (close_conn w1 1) (readers room_of_two ∖ {[1%positive]}) ∧
    clients w' = delete 1%positive (clients room_of_two) ∧
    heap w'
      = <[1%positive := mkClient (Close (conn cl))
                          (mkChan (buf (send cl)) (cap (send cl)) true)]>
          (heap room_of_two) ∧
    writers w' = writers room_of_two ∧
    (∀ B, B ≠ 1%positive →
       heap w' !! B = heap room_of_two !! B ∧
       (B ∈ dom (clients w') ↔ B ∈ dom (clients room_of_two)) ∧
       (B ∈ readers w' ↔ B ∈ readers room_of_two)) ∧
    Inv w'.
Proof.
  assert (Inv room_of_two) as HI by apply after_Inv.
  assert (1%positive ∈ readers room_of_two) as Hc by (by vm_compute).
  split_and!; [exact HI | exact Hc |].
  exact (read_error_tears_down room_of_two 1%positive HI Hc).
Defined.

(** C9. Along any run of the process in which [A] is the only peer of [B]
    that broadcasts, and at whose start nothing is queued for [B], the
    messages the outbound loop of [B] takes from its queue, followed by those
    still queued at the end, form a subsequence of the messages [A] broadcast,
    in the order [A] broadcast them: some may be missing, none is moved,
    repeated or delivered late. *)
Theorem in_order_subsequence_delivery (w w' : World) (A B : ptr)
    (evs : list event) :
  Inv w →
  A ≠ B →
  queue w B = [] →
  (∀ c msg, EvRead c (Some msg) ∈ evs → c = A ∨ c = B) →
  run w evs = Some w' →
  consumed B w evs ++ queue w' B `sublist_of` sent_by A evs ∧
  consumed B w evs `sublist_of` sent_by A evs.
Proof.
  intros HI Hne Hempty Honly Hrun.
  pose proof (delivery_in_order evs w w' B HI Hrun) as Hsub.
  rewrite Hempty, (offered_only_sender A B evs Hne Honly) in Hsub. cbn in Hsub.
  split; [done |]. etrans; [| exact Hsub]. by apply sublist_inserts_r.
Qed.

Lemma in_order_subsequence_delivery_witness :
  Inv room_of_two ∧ 1%positive ≠ 2%positive ∧ queue room_of_two 2 = [] ∧
  (∀ c msg, EvRead c (Some msg) ∈ relay_run → c = 1%positive ∨ c = 2%positive) ∧
  run room_of_two relay_run = Some relayed_room ∧
  consumed 2 room_of_two relay_run ++ queue relayed_room 2
    `sublist_of` sent_by 1 relay_run ∧
  consumed 2 room_of_two relay_run `sublist_of` sent_by 1 relay_run.
Proof.
  assert (Inv room_of_two) as HI by apply after_Inv.
  assert (1%positive ≠ 2%positive) as Hne by done.
  assert (queue room_of_two 2 = []) as Hempty by (by vm_compute).
  assert (∀ c msg, EvRead c (Some msg) ∈ relay_run →
            c = 1%positive ∨ c = 2%positive) as Honly.
  { intros c msg Hin. unfold relay_run in Hin.
    repeat (apply elem_of_cons in Hin as [Hin|Hin];
            [first [by injection Hin as -> _; left | discriminate Hin] |]).
    by apply elem_of_nil in Hin. }
  assert (run room_of_two relay_run = Some relayed_room) as Hrun
    by (by vm_compute).
  split_and!; [exact HI | exact Hne | exact Hempty | exact Honly | exact Hrun | |].
  - exact (proj1 (in_order_subsequence_delivery room_of_two relayed_room
                    1%positive 2%positive relay_run HI Hne Hempty Honly Hrun)).
  - exact (proj2 (in_order_subsequence_delivery room_of_two relayed_room
                    1%positive 2%positive relay_run HI Hne Hempty Honly Hrun)).
Defined.

(** ** The two end-to-end scenarios of the relay, evaluated *)

(** X and Y connect, X sends one frame: it is queued for Y and not for X;
    the writer of Y puts exactly that frame on Y's connection. *)
Example relay_one_frame :
  let w := after [EvConnect true; EvConnect true; EvRead 1 (Some frame1);
                  EvWrite 2 false] in
  (wire ∘ conn <$> heap w !! 2%positive) = Some [(TextMessage, frame1)] ∧
  (wire ∘ conn <$> heap w !! 1%positive) = Some [] ∧
  queue w 1 = [] ∧ queue w 2 = [].
Proof. by vm_compute. Qed.

(** After X has left, a third client is admitted. *)
Example room_frees_up :
  let w := after [EvConnect true; EvConnect true; EvRead 1 None; EvConnect true] in
  dom (clients w) = {[2; 3]}%positive ∧ size (clients w) = 2.
Proof. by vm_compute. Qed.

(** Y never drains its queue while X sends 20 frames: 16 are queued. *)
Example stalled_peer_keeps_sixteen :
  let w := after ([EvConnect true; EvConnect true]
                  ++ replicate 20 (EvRead 1%positive (Some frame1))) in
  length (queue w 2) = 16 ∧ length (queue w 1) = 0.
Proof. by vm_compute. Qed.

Example relay_run_consumed :
  consumed 2 room_of_two relay_run = [frame1; room_full] ∧
  queue relayed_room 2 = [frame1] ∧
  sent_by 1 relay_run = [frame1; room_full; frame1].
Proof. by vm_compute. Qed.


(** * Further properties of the server *)

Section process.
Implicit Types (w : World) (c A B : ptr) (msg : payload) (evs : list event).

(** What [broadcast] does to the queue of a registered session that is not
    the sender. *)
Lemma broadcast_queue_member w c msg B :
  Inv w → B ∈ dom (clients w) → B ≠ c →
  queue (broadcast w c msg).1 B =
    if decide (length (queue w B) < 16) then queue w B ++ [msg] else queue w B.
Proof.
  intros HI HB Hne.
  destruct (broadcast_in_spec w _ c msg (Inv_members_open w HI) (reflexivity _))
    as (h' & Hrun & Hh').
  unfold broadcast. rewrite Hrun. unfold queue. cbn. rewrite Hh'.
  rewrite decide_True by done.
  destruct (Inv_members_open w HI B HB) as (cl & -> & _ & _). cbn.
  by destruct (decide (length (buf (send cl)) < 16)).
Qed.

(** [broadcast] writes on no connection and leaves the registry and the
    loops alone. *)
Lemma broadcast_frame w c msg :
  Inv w →
  clients (broadcast w c msg).1 = clients w ∧
  readers (broadcast w c msg).1 = readers w ∧
  writers (broadcast w c msg).1 = writers w ∧
  (broadcast w c msg).2 = Done ∧
  ∀ B, wire_of (broadcast w c msg).1 B = wire_of w B.
Proof.
  intros HI.
  destruct (broadcast_in_spec w _ c msg (Inv_members_open w HI) (reflexivity _))
    as (h' & Hrun & Hh').
  unfold broadcast. rewrite Hrun. cbn. split_and!; try done.
  intros B. unfold wire_of. cbn. rewrite Hh'.
  destruct (decide (B ∈ dom (clients w) ∧ B ≠ c)); [| done].
  by destruct (heap w !! B).
Qed.
End process.

(** X1. No step the running server can take panics: in a state reached from
    a new server, [remove] never closes a queue twice and [broadcast] never
    sends on a closed queue. *)
Theorem process_never_panics (w w' : World) (ev : event) (o : outcome) :
  reachable w → exec w ev = Some (w', o) → o = Done.
Proof.
  intros Hw Hstep.
  by destruct (Inv_exec w ev w' o (reachable_Inv w Hw) Hstep).
Qed.

Lemma process_never_panics_witness :
  reachable stalled_room ∧
  exec stalled_room (EvRead 2 None)
    = Some (reader_step stalled_room 2 None) ∧
  (reader_step stalled_room 2 None).2 = Done.
Proof.
  assert (reachable stalled_room) as Hw by apply after_reachable.
  assert (exec stalled_room (EvRead 2 None)
    = Some ((reader_step stalled_room 2 None).1,
            (reader_step stalled_room 2 None).2)) as Hstep by (by vm_compute).
  split_and!; [exact Hw | by vm_compute |].
  exact (process_never_panics stalled_room _ (EvRead 2 None) _ Hw Hstep).
Defined.

(** X2. The result of [broadcast] does not depend on the order in which the
    runtime yields the keys of the map: any two orders give the same state. *)
Theorem broadcast_order_irrelevant (w : World) (order1 order2 : list ptr)
    (sender : ptr) (msg : payload) :
  members_open w →
  order1 ≡ₚ elements (dom (clients w)) →
  order2 ≡ₚ elements (dom (clients w)) →
  broadcast_in order1 w sender msg = broadcast_in order2 w sender msg.
Proof.
  intros Hopen H1 H2.
  rewrite (broadcast_in_any_order w order1 sender msg Hopen H1).
  by rewrite (broadcast_in_any_order w order2 sender msg Hopen H2).
Qed.

Lemma broadcast_order_irrelevant_witness :
  members_open room_of_two ∧
  [1; 2]%positive ≡ₚ elements (dom (clients room_of_two)) ∧
  [2; 1]%positive ≡ₚ elements (dom (clients room_of_two)) ∧
  broadcast_in [1; 2]%positive room_of_two 3 frame1
    = broadcast_in [2; 1]%positive room_of_two 3 frame1.
Proof.
  assert (members_open room_of_two) as Hopen
    by apply Inv_members_open, after_Inv.
  assert ([1; 2]%positive ≡ₚ elements (dom (clients room_of_two))) as H1
    by (rewrite room_of_two_members; apply perm_swap).
  assert ([2; 1]%positive ≡ₚ elements (dom (clients room_of_two))) as H2
    by (by rewrite room_of_two_members).
  split_and!; [exact Hopen | exact H1 | exact H2 |].
  exact (broadcast_order_irrelevant room_of_two _ _ 3%positive frame1 Hopen H1 H2).
Defined.

(** X3. While fewer than two sessions are registered, an upgraded connection
    is admitted: its client, at a new address, is registered with an empty,
    open queue of 16 slots and an open connection on which nothing was
    written, both of its loops are started, membership grows by exactly one,
    and every other client and loop is as before. *)
Theorem admitted_below_capacity (w : World) :
  Inv w →
  size (clients w) < maxClients →
  heap w !! new_ptr w = None ∧
  heap (handleWS w true) !! new_ptr w
    = Some (mkClient (mkConn [] false) (mkChan [] 16 false)) ∧
  dom (clients (handleWS w true)) = {[new_ptr w]} ∪ dom (clients w) ∧
  size (clients (handleWS w true)) = S (size (clients w)) ∧
  readers (handleWS w true) = {[new_ptr w]} ∪ readers w ∧
  writers (handleWS w true) = {[new_ptr w]} ∪ writers w ∧
  ∀ B, B ≠ new_ptr w → heap (handleWS w true) !! B = heap w !! B.
Proof.
  intros HI Hlt. rewrite handleWS_admit by done. cbn. split_and!.
  - apply new_ptr_fresh.
  - apply lookup_insert_eq.
  - apply dom_insert_L.
  - apply map_size_insert_None. by apply new_ptr_not_member.
  - done.
  - done.
  - intros B HB. by rewrite lookup_insert_ne.
Qed.

Lemma admitted_below_capacity_witness :
  Inv room_of_one ∧ size (clients room_of_one) < maxClients ∧
  heap (handleWS room_of_one true) !! new_ptr room_of_one
    = Some (mkClient (mkConn [] false) (mkChan [] 16 false)) ∧
  size (clients (handleWS room_of_one true)) = S (size (clients room_of_one)).
Proof.
  assert (Inv room_of_one) as HI by apply after_Inv.
  assert (size (clients room_of_one) < maxClients) as Hlt by (vm_compute; lia).
  pose proof (admitted_below_capacity room_of_one HI Hlt)
    as (_ & H2 & _ & H4 & _).
  split_and!; [exact HI | exact Hlt | exact H2 | exact H4].
Defined.

(** X4. A read error of a registered session frees its place: membership
    shrinks by exactly one, and the next upgraded connection is admitted. *)
Theorem disconnect_frees_a_place (w : World) (c : ptr) :
  Inv w →
  c ∈ readers w →
  S (size (clients (reader_step w c None).1)) = size (clients w) ∧
  new_ptr (reader_step w c None).1
    ∈ dom (clients (handleWS (reader_step w c None).1 true)).
Proof.
  intros HI Hc.
  destruct (Inv_reader_step w c None HI Hc) as (w1 & E & HI1). rewrite E.
  cbn [fst].
  destruct (inv_open w HI c Hc) as (cl & Hcl & Hopen).
  cbn in E. rewrite (reader_exit_open w c cl) in E by done.
  injection E as <-.
  assert (c ∈ dom (clients w)) as Hmem by by rewrite (inv_readers w HI).
  apply elem_of_dom in Hmem as [b Hb].
  assert (S (size (delete c (clients w))) = size (clients w)) as Hsize.
  { rewrite map_size_delete_Some by eauto.
    assert (size (clients w) ≠ 0) as Hpos
      by (apply (map_size_ne_0_lookup_2 _ c); eauto).
    lia. }
  split; [done |].
  rewrite handleWS_admit; cbn.
  - rewrite dom_insert_L. set_solver.
  - pose proof (inv_size w HI). lia.
Qed.

Lemma disconnect_frees_a_place_witness :
  Inv room_of_two ∧ 1%positive ∈ readers room_of_two ∧
  S (size (clients (reader_step room_of_two 1 None).1))
    = size (clients room_of_two) ∧
  new_ptr (reader_step room_of_two 1 None).1
    ∈ dom (clients (handleWS (reader_step room_of_two 1 None).1 true)).
Proof.
  assert (Inv room_of_two) as HI by apply after_Inv.
  assert (1%positive ∈ readers room_of_two) as Hc by (by vm_compute).
  split_and!; [exact HI | exact Hc | |];
    apply (disconnect_frees_a_place room_of_two 1%positive HI Hc).
Defined.

Section lifecycle.
Implicit Types (w : World) (c A B : ptr) (msg : payload) (evs : list event).

Lemma writer_step_frame w c neterr w1 got :
  writer_step w c neterr = Some (w1, got) →
  clients w1 = clients w ∧ readers w1 = readers w.
Proof.
  unfold writer_step. destruct (heap w !! c) as [cl|]; [| done].
  destruct (buf (send cl)) as [|msg rest].
  - destruct (closed (send cl)); [| done]. by intros [= <- <-].
  - destruct (WriteMessage _ _ _ _) as [cn err]. intros [= <- <-].
    by destruct err.
Qed.

Lemma handleWS_readers w upgraded : readers w ⊆ readers (handleWS w upgraded).
Proof.
  destruct upgraded; [| done].
  destruct (decide (size (clients w) < maxClients)).
  - rewrite handleWS_admit by done. cbn. set_solver.
  - rewrite handleWS_reject by lia. done.
Qed.

Lemma handleWS_allocated w upgraded c cl :
  heap w !! c = Some cl → heap (handleWS w upgraded) !! c = Some cl.
Proof.
  intros Hcl. destruct upgraded; [| done].
  assert (new_ptr w ≠ c) as Hne.
  { intros E. pose proof (new_ptr_fresh w) as Hf. rewrite E in Hf. congruence. }
  destruct (decide (size (clients w) < maxClients)).
  - rewrite handleWS_admit by done. cbn. by rewrite lookup_insert_ne.
  - rewrite handleWS_reject by lia. cbn. by rewrite lookup_insert_ne.
Qed.

Lemma consumed_cons w ev w1 o c evs :
  exec w ev = Some (w1, o) →
  consumed c w (ev :: evs) = taken c w ev ++ consumed c w1 evs.
Proof.
  intros E. cbn. rewrite E. destruct ev as [|c0 r|c0 n]; try done.
  cbn. case_decide; [| done]. by destruct (queue w c).
Qed.

Lemma broadcast_conn w c msg B cl :
  Inv w → heap w !! B = Some cl →
  ∃ cl1, heap (broadcast w c msg).1 !! B = Some cl1 ∧ conn cl1 = conn cl.
Proof.
  intros HI Hcl.
  destruct (broadcast_in_spec w _ c msg (Inv_members_open w HI) (reflexivity _))
    as (h' & Hrun & Hh').
  unfold broadcast. rewrite Hrun. cbn. rewrite Hh', Hcl.
  destruct (decide (B ∈ dom (clients w) ∧ B ≠ c)); cbn; eauto.
Qed.

(** One step of the process, seen from the connection of [c]: only the
    writer of [c] writes on it, one text frame holding the head of the queue,
    and only while the connection is open; a closed connection stays
    closed. *)
Lemma exec_conn w ev w1 o c cl :
  Inv w → heap w !! c = Some cl → exec w ev = Some (w1, o) →
  ∃ cl1, heap w1 !! c = Some cl1 ∧
    wire (conn cl1)
      = wire (conn cl) ++
        (if conn_closed (conn cl) then []
         else (λ m, (TextMessage, m)) <$> taken c w ev) ∧
    (conn_closed (conn cl) = true → conn_closed (conn cl1) = true).
Proof.
  intros HI Hcl.
  assert (wire (conn cl) = wire (conn cl) ++
            (if conn_closed (conn cl) then [] else [])) as Hsame
    by (by destruct (conn_closed (conn cl)); rewrite app_nil_r).
  destruct ev as [upgraded|c' r|c' neterr]; cbn.
  - intros [= <- <-]. exists cl.
    by rewrite (handleWS_allocated w upgraded c cl Hcl).
  - case_decide as Hc'; [| done]. intros [= E].
    destruct r as [msg|]; cbn in E.
    + destruct (Inv_broadcast w c' msg HI) as (h' & Hb & _).
      rewrite Hb in E. injection E as <- <-.
      destruct (broadcast_conn w c' msg c cl HI Hcl) as (cl1 & Hcl1 & Hconn).
      rewrite Hb in Hcl1. exists cl1. by rewrite Hconn.
    + destruct (inv_open w HI c' Hc') as (cl' & Hcl' & Hopen).
      rewrite (reader_exit_open w c' cl') in E by done.
      injection E as <- <-. cbn. rewrite lookup_insert. case_decide as Hcc.
      * subst c'. assert (cl' = cl) as -> by congruence. eexists. by cbn.
      * by exists cl.
  - case_decide as Hc'; [| done].
    destruct (writer_step w c' neterr) as [[w2 got]|] eqn:Hw; [| done].
    cbn. intros [= <- <-]. revert Hw. unfold writer_step, queue.
    destruct (heap w !! c') as [cl'|] eqn:Hcl'; [| done].
    destruct (decide (c' = c)) as [->|Hne].
    + assert (cl' = cl) as -> by congruence. rewrite Hcl.
      destruct (buf (send cl)) as [|msg rest] eqn:Hbuf.
      * destruct (closed (send cl)); [| done]. intros [= <- <-]. cbn.
        exists cl. by destruct (conn_closed (conn cl)); rewrite ?app_nil_r.
      * unfold WriteMessage.
        destruct (conn_closed (conn cl)) eqn:Hclosed; intros [= <- <-].
        -- cbn. rewrite lookup_insert_eq. eexists. split; [done |]. cbn.
           by rewrite app_nil_r.
        -- eexists (mkClient _ _). split.
           ++ destruct neterr; cbn; apply lookup_insert_eq.
           ++ cbn. by rewrite take_0.
    + destruct (buf (send cl')) as [|msg rest].
      * destruct (closed (send cl')); [| done]. intros [= <- <-]. by exists cl.
      * destruct (WriteMessage _ _ _ _) as [cn err]. intros [= <- <-].
        exists cl. split; [| done].
        destruct err; cbn; by rewrite lookup_insert_ne.
Qed.

(** The frames written on the connection of an allocated client along a
    run are text frames holding the first messages its writer took, in
    order. *)
Lemma wire_prefix_of_consumed evs : ∀ w w' c cl,
  Inv w → heap w !! c = Some cl → run w evs = Some w' →
  ∃ cl' k, heap w' !! c = Some cl' ∧
    (conn_closed (conn cl) = true → wire (conn cl') = wire (conn cl)) ∧
    wire (conn cl')
      = wire (conn cl) ++ ((λ m, (TextMessage, m)) <$> take k (consumed c w evs)).
Proof.
  induction evs as [|ev evs IH]; intros w w' c cl HI Hcl; cbn [run].
  - intros [= <-]. exists cl, 0. by rewrite app_nil_r.
  - destruct (exec w ev) as [[w1 o]|] eqn:E; [| done]. intros Hrun.
    destruct (Inv_exec w ev w1 o HI E) as [_ HI1].
    destruct (exec_conn w ev w1 o c cl HI Hcl E) as (cl1 & Hcl1 & Hwire & Hmono).
    destruct (IH w1 w' c cl1 HI1 Hcl1 Hrun) as (cl' & k & Hcl' & IHclosed & IHk).
    rewrite (consumed_cons w ev w1 o c evs E).
    exists cl'. destruct (conn_closed (conn cl)) eqn:Hclosed.
    + rewrite app_nil_r in Hwire. exists 0. rewrite take_0, app_nil_r.
      rewrite IHclosed by auto. by rewrite Hwire.
    + exists (length (taken c w ev) + k). split_and!; [done | done |].
      rewrite take_app, take_ge by lia.
      replace (length (taken c w ev) + k - length (taken c w ev)) with k by lia.
      by rewrite fmap_app, app_assoc, <- Hwire.
Qed.
End lifecycle.

(** X5. A session that is admitted and then fails its first read leaves
    the registry and the set of running readers exactly as they were before
    it connected; the teardown does not panic. *)
Theorem connect_then_disconnect (w : World) :
  Inv w →
  size (clients w) < maxClients →
  (reader_step (handleWS w true) (new_ptr w) None).2 = Done ∧
  clients (reader_step (handleWS w true) (new_ptr w) None).1 = clients w ∧
  readers (reader_step (handleWS w true) (new_ptr w) None).1 = readers w ∧
  ∀ B, B ≠ new_ptr w →
    heap (reader_step (handleWS w true) (new_ptr w) None).1 !! B = heap w !! B.
Proof.
  intros HI Hlt.
  assert (new_ptr w ∉ readers w) as Hr.
  { rewrite <- (inv_readers w HI). apply not_elem_of_dom.
    by apply new_ptr_not_member. }
  rewrite handleWS_admit by done. cbn.
  erewrite reader_exit_open; [| cbn; apply lookup_insert_eq | done].
  cbn. split_and!.
  - done.
  - rewrite delete_insert_eq. apply delete_id. by apply new_ptr_not_member.
  - set_solver.
  - intros B HB. by rewrite !lookup_insert_ne.
Qed.

Lemma connect_then_disconnect_witness :
  Inv room_of_one ∧ size (clients room_of_one) < maxClients ∧
  (reader_step (handleWS room_of_one true) (new_ptr room_of_one) None).2 = Done ∧
  clients (reader_step (handleWS room_of_one true) (new_ptr room_of_one) None).1
    = clients room_of_one.
Proof.
  assert (Inv room_of_one) as HI by apply after_Inv.
  assert (size (clients room_of_one) < maxClients) as Hlt by (vm_compute; lia).
  pose proof (connect_then_disconnect room_of_one HI Hlt) as (H1 & H2 & _).
  split_and!; [exact HI | exact Hlt | exact H1 | exact H2].
Defined.

(** X6. Once the reader of a session has torn it down, the next iteration
    of its writer never blocks and is its last: either the queue is empty
    and closed, or the message taken meets a closed connection.  Nothing
    more is written on the connection, and the messages still queued are
    never delivered. *)
Theorem writer_ends_after_teardown (w : World) (c : ptr) (neterr : bool) :
  Inv w →
  c ∈ readers w →
  ∃ w2 got, writer_step (reader_step w c None).1 c neterr = Some (w2, got) ∧
    (c ∉ writers w2) ∧
    got = head (queue w c) ∧
    wire_of w2 c = wire_of w c ∧
    clients w2 = clients (reader_step w c None).1.
Proof.
  intros HI Hc. destruct (inv_open w HI c Hc) as (cl & Hcl & Hopen).
  cbn. rewrite (reader_exit_open w c cl) by done. cbn.
  unfold writer_step, wire_of, queue. cbn. rewrite lookup_insert_eq, Hcl. cbn.
  destruct (buf (send cl)) as [|msg rest]; cbn.
  - eexists _, _. split; [done |]. cbn. rewrite lookup_insert_eq. cbn.
    split_and!; try done. set_solver.
  - eexists _, _. split; [done |]. cbn. rewrite lookup_insert_eq. cbn.
    split_and!; try done. set_solver.
Qed.

Lemma writer_ends_after_teardown_witness :
  Inv stalled_room ∧ 2%positive ∈ readers stalled_room ∧
  ∃ w2 got,
    writer_step (reader_step stalled_room 2 None).1 2 false = Some (w2, got) ∧
    (2%positive ∉ writers w2) ∧
    got = head (queue stalled_room 2) ∧
    wire_of w2 2 = wire_of stalled_room 2 ∧
    clients w2 = clients (reader_step stalled_room 2 None).1.
Proof.
  assert (Inv stalled_room) as HI by apply after_Inv.
  assert (2%positive ∈ readers stalled_room) as Hc by (by vm_compute).
  split_and!; [exact HI | exact Hc |].
  exact (writer_ends_after_teardown stalled_room 2%positive false HI Hc).
Defined.

(** X7. End to end: along any run in which [A] is the only peer of the
    registered session [B] that broadcasts, and at whose start nothing is
    queued for [B] or written on its connection, every frame written on the
    connection of [B] is a text frame, and the payloads written, in order,
    are a subsequence of the messages [A] broadcast, byte for byte. *)
Theorem relay_end_to_end (w w' : World) (A B : ptr) (evs : list event) :
  Inv w →
  A ≠ B →
  B ∈ dom (clients w) →
  queue w B = [] →
  wire_of w B = [] →
  (∀ c msg, EvRead c (Some msg) ∈ evs → c = A ∨ c = B) →
  run w evs = Some w' →
  Forall (λ f, f.1 = TextMessage) (wire_of w' B) ∧
  (snd <$> wire_of w' B) `sublist_of` sent_by A evs.
Proof.
  intros HI Hne HB Hq Hwire Honly Hrun.
  destruct (Inv_members_open w HI B HB) as (cl & Hcl & _).
  destruct (wire_prefix_of_consumed evs w w' B cl HI Hcl Hrun)
    as (cl' & k & Hcl' & _ & Hk).
  unfold wire_of in *. rewrite Hcl in Hwire. rewrite Hcl', Hk, Hwire. cbn.
  split.
  - apply Forall_fmap. by apply Forall_true.
  - rewrite <- list_fmap_compose, list_fmap_id.
    pose proof (delivery_in_order evs w w' B HI Hrun) as Hsub.
    rewrite Hq, (offered_only_sender A B evs Hne Honly) in Hsub. cbn in Hsub.
    etrans; [apply sublist_take |].
    etrans; [| exact Hsub]. by apply sublist_inserts_r.
Qed.

Lemma relay_end_to_end_witness :
  Inv room_of_two ∧ 1%positive ≠ 2%positive ∧
  2%positive ∈ dom (clients room_of_two) ∧
  queue room_of_two 2 = [] ∧ wire_of room_of_two 2 = [] ∧
  (∀ c msg, EvRead c (Some msg) ∈ relay_run → c = 1%positive ∨ c = 2%positive) ∧
  run room_of_two relay_run = Some relayed_room ∧
  Forall (λ f, f.1 = TextMessage) (wire_of relayed_room 2) ∧
  (snd <$> wire_of relayed_room 2) `sublist_of` sent_by 1 relay_run.
Proof.
  assert (Inv room_of_two) as HI by apply after_Inv.
  assert (1%positive ≠ 2%positive) as Hne by done.
  assert (2%positive ∈ dom (clients room_of_two)) as HB by (by vm_compute).
  assert (queue room_of_two 2 = []) as Hq by (by vm_compute).
  assert (wire_of room_of_two 2 = []) as Hwire by (by vm_compute).
  assert (∀ c msg, EvRead c (Some msg) ∈ relay_run →
            c = 1%positive ∨ c = 2%positive) as Honly.
  { intros c msg Hin. unfold relay_run in Hin.
    repeat (apply elem_of_cons in Hin as [Hin|Hin];
            [first [by injection Hin as -> _; left | discriminate Hin] |]).
    by apply elem_of_nil in Hin. }
  assert (run room_of_two relay_run = Some relayed_room) as Hrun
    by (by vm_compute).
  split_and!; [exact HI | exact Hne | exact HB | exact Hq | exact Hwire
              | exact Honly | exact Hrun | |];
    apply (relay_end_to_end room_of_two relayed_room 1%positive 2%positive
             relay_run HI Hne HB Hq Hwire Honly Hrun).
Defined.

Section backpressure.
Implicit Types (w : World) (c A B : ptr) (msg : payload) (evs : list event).

Lemma exec_keeps_reader w ev w1 o B :
  Inv w → B ∈ readers w → ev ≠ EvRead B None → exec w ev = Some (w1, o) →
  B ∈ readers w1.
Proof.
  intros HI HB Hev. destruct ev as [upgraded|c r|c neterr]; cbn.
  - intros [= <- <-]. by apply handleWS_readers.
  - case_decide as Hc; [| done]. intros [= E]. destruct r as [msg|]; cbn in E.
    + destruct (Inv_broadcast w c msg HI) as (h' & Hb & _).
      rewrite Hb in E. by injection E as <- <-.
    + destruct (inv_open w HI c Hc) as (cl & Hcl & Hopen).
      rewrite (reader_exit_open w c cl) in E by done.
      injection E as <- <-. cbn. assert (c ≠ B) by congruence. set_solver.
  - case_decide as Hc; [| done].
    destruct (writer_step w c neterr) as [[w2 got]|] eqn:Hw; [| done].
    cbn. intros [= <- <-].
    destruct (writer_step_frame w c neterr w2 got Hw) as [_ ->]. done.
Qed.

(** As long as the queue of a registered session never has to hold more than
    16 messages, nothing is dropped. *)
Lemma no_loss_run evs : ∀ w w' B,
  Inv w → B ∈ readers w →
  Forall (λ ev, ev ≠ EvRead B None) evs →
  length (queue w B) + length (offered_to B evs) ≤ 16 →
  run w evs = Some w' →
  consumed B w evs ++ queue w' B = queue w B ++ offered_to B evs.
Proof.
  induction evs as [|ev evs IH]; intros w w' B HI HB Hstay Hroom; cbn [run].
  - intros [= <-]. cbn. by rewrite app_nil_r.
  - destruct (exec w ev) as [[w1 o]|] eqn:E; [| done]. intros Hrun.
    apply Forall_cons in Hstay as [Hev Hstay].
    destruct (Inv_exec w ev w1 o HI E) as [_ HI1].
    pose proof (exec_keeps_reader w ev w1 o B HI HB Hev E) as HB1.
    rewrite (consumed_cons w ev w1 o B evs E).
    specialize (IH w1 w' B HI1 HB1 Hstay).
    destruct ev as [upgraded|c r|c neterr]; cbn in E.
    + injection E as <- <-. rewrite handleWS_queue in IH. cbn. by apply IH.
    + case_decide as Hc; [| done]. injection E as E.
      destruct r as [msg|]; cbn in E.
      * destruct (Inv_broadcast w c msg HI) as (h' & Hb & _).
        rewrite Hb in E. injection E as <- <-. cbn.
        destruct (decide (c = B)) as [->|Hne].
        -- cbn in Hroom. rewrite decide_True in Hroom by done.
           pose proof (broadcast_queue w B msg B _ _ HI Hb) as Hq.
           rewrite decide_True in Hq by done. rewrite Hq in IH. by apply IH.
        -- cbn in Hroom. rewrite decide_False in Hroom by done. cbn in Hroom.
           assert (B ∈ dom (clients w)) as Hmem by by rewrite (inv_readers w HI).
           pose proof (broadcast_queue_member w c msg B HI Hmem
                         (not_eq_sym Hne)) as Hq.
           rewrite Hb in Hq. cbn [fst] in Hq.
           rewrite decide_True in Hq by lia. rewrite Hq in IH.
           rewrite <- app_assoc in IH. apply IH; [| done].
           rewrite length_app. cbn. lia.
      * rewrite (reader_exit_queue w c B w1 o HI Hc E) in IH. cbn. by apply IH.
    + case_decide as Hc; [| done].
      destruct (writer_step w c neterr) as [[w2 got]|] eqn:Hw; [| done].
      cbn in E. injection E as <- <-.
      rewrite (writer_step_queue w c neterr w2 got B Hw) in IH. cbn.
      destruct (decide (c = B)) as [->|Hne]; cbn in Hroom.
      * destruct (queue w B) as [|msg rest]; cbn in *; [by apply IH |].
        f_equal. apply IH; [lia | done].
      * by apply IH.
Qed.

(** While its writer does not run, a registered session keeps the first 16
    of the messages queued and sent to it. *)
Lemma stalled_run A B msgs : ∀ w,
  Inv w → A ∈ readers w → B ∈ readers w → A ≠ B →
  ∃ w', run w (reads_of A msgs) = Some w' ∧
    queue w' B = take 16 (queue w B ++ msgs) ∧
    queue w' A = queue w A.
Proof.
  induction msgs as [|msg msgs IH]; intros w HI HA HB Hne; cbn.
  - exists w. split_and!; [done | | done].
    rewrite app_nil_r. destruct (heap w !! B) as [cl|] eqn:Hcl.
    + unfold queue. rewrite Hcl. rewrite take_ge; [done |].
      by apply (inv_queue w HI B cl Hcl).
    + unfold queue. by rewrite Hcl.
  - rewrite decide_True by done. cbn.
    destruct (Inv_broadcast w A msg HI) as (h' & Hb & HI1). rewrite Hb.
    destruct (broadcast_frame w A msg HI) as (_ & Hr & _).
    rewrite Hb in Hr. cbn [fst] in Hr.
    destruct (IH (set_heap w h') HI1) as (w' & Hrun & HqB & HqA);
      [by rewrite Hr | by rewrite Hr | done |].
    exists w'. split; [done |].
    assert (B ∈ dom (clients w)) as Hmem by by rewrite (inv_readers w HI).
    pose proof (broadcast_queue_member w A msg B HI Hmem (not_eq_sym Hne)) as Hq.
    pose proof (broadcast_queue w A msg A _ _ HI Hb) as HqA'.
    rewrite decide_True in HqA' by done.
    rewrite Hb in Hq. cbn [fst] in Hq.
    rewrite HqB, HqA, HqA', Hq. split; [| done].
    case_decide as Hlen.
    + by rewrite <- app_assoc.
    + rewrite !take_app_le by lia. done.
Qed.
End backpressure.

(** X8. No loss within capacity: along any run during which the registered
    session [B] stays connected, if the messages queued for [B] at the start
    together with those the others broadcast number at most 16, then what the
    writer of [B] takes followed by what is still queued is exactly what was
    queued followed by every message broadcast, in order: nothing is
    dropped. *)
Theorem no_loss_within_capacity (w w' : World) (B : ptr) (evs : list event) :
  Inv w →
  B ∈ dom (clients w) →
  Forall (λ ev, ev ≠ EvRead B None) evs →
  length (queue w B) + length (offered_to B evs) ≤ 16 →
  run w evs = Some w' →
  consumed B w evs ++ queue w' B = queue w B ++ offered_to B evs.
Proof.
  intros HI HB. rewrite (inv_readers w HI) in HB. by apply no_loss_run.
Qed.

Lemma no_loss_within_capacity_witness :
  Inv room_of_two ∧ 2%positive ∈ dom (clients room_of_two) ∧
  Forall (λ ev, ev ≠ EvRead 2%positive None) relay_run ∧
  length (queue room_of_two 2) + length (offered_to 2 relay_run) ≤ 16 ∧
  run room_of_two relay_run = Some relayed_room ∧
  consumed 2 room_of_two relay_run ++ queue relayed_room 2
    = queue room_of_two 2 ++ offered_to 2 relay_run.
Proof.
  assert (Inv room_of_two) as HI by apply after_Inv.
  assert (2%positive ∈ dom (clients room_of_two)) as HB by (by vm_compute).
  assert (Forall (λ ev, ev ≠ EvRead 2%positive None) relay_run) as Hstay
    by (unfold relay_run; repeat constructor; discriminate).
  assert (length (queue room_of_two 2) + length (offered_to 2 relay_run) ≤ 16)
    as Hroom by (vm_compute; lia).
  assert (run room_of_two relay_run = Some relayed_room) as Hrun
    by (by vm_compute).
  split_and!; [exact HI | exact HB | exact Hstay | exact Hroom | exact Hrun |].
  exact (no_loss_within_capacity room_of_two relayed_room 2%positive relay_run
           HI HB Hstay Hroom Hrun).
Defined.

(** X9. Drop-newest under a stalled peer: when [A] broadcasts the messages
    [msgs] while the writer of the registered session [B] does not run, the
    queue of [B] ends up holding the first 16 of what was queued followed by
    [msgs], in order; the later ones are lost and [A] gets none of its own
    messages. *)
Theorem stalled_peer_keeps_oldest (w : World) (A B : ptr)
    (msgs : list payload) :
  Inv w →
  A ∈ dom (clients w) →
  B ∈ dom (clients w) →
  A ≠ B →
  ∃ w', run w (reads_of A msgs) = Some w' ∧
    queue w' B = take 16 (queue w B ++ msgs) ∧
    queue w' A = queue w A.
Proof.
  intros HI HA HB. rewrite (inv_readers w HI) in HA, HB.
  by apply stalled_run.
Qed.

Lemma stalled_peer_keeps_oldest_witness :
  Inv room_of_two ∧ 1%positive ∈ dom (clients room_of_two) ∧
  2%positive ∈ dom (clients room_of_two) ∧ 1%positive ≠ 2%positive ∧
  ∃ w', run room_of_two (reads_of 1 (replicate 20 frame1)) = Some w' ∧
    queue w' 2 = take 16 (queue room_of_two 2 ++ replicate 20 frame1) ∧
    queue w' 1 = queue room_of_two 1.
Proof.
  assert (Inv room_of_two) as HI by apply after_Inv.
  assert (1%positive ∈ dom (clients room_of_two)) as HA by (by vm_compute).
  assert (2%positive ∈ dom (clients room_of_two)) as HB by (by vm_compute).
  assert (1%positive ≠ 2%positive) as Hne by done.
  split_and!; [exact HI | exact HA | exact HB | exact Hne |].
  exact (stalled_peer_keeps_oldest room_of_two 1%positive 2%positive
           (replicate 20 frame1) HI HA HB Hne).
Defined.

(** * Properties of the client *)

Section rendering.
Variable shade : Vecb → Z.
Implicit Types (mat : Mat) (out : list Byte.byte).

Lemma every_other_spec rows y :
  y ∈ every_other rows ↔ ∃ i, y = 2 * i ∧ 2 * i < rows.
Proof.
  unfold every_other. rewrite list_elem_of_fmap. split.
  - intros (i & -> & Hi). exists i. split; [done |].
    apply elem_of_seq in Hi. pose proof (Nat.div2_decr (S rows) (S rows)).
    destruct (Nat.Even_Odd_dec (S rows)) as [He|Ho].
    + pose proof (Nat.Even_double _ He) as Hd. unfold Nat.double in Hd. lia.
    + pose proof (Nat.Odd_double _ Ho) as Hd. unfold Nat.double in Hd. lia.
  - intros (i & -> & Hi). exists i. split; [done |].
    apply elem_of_seq.
    destruct (Nat.Even_Odd_dec (S rows)) as [He|Ho].
    + pose proof (Nat.Even_double _ He) as Hd. unfold Nat.double in Hd. lia.
    + pose proof (Nat.Odd_double _ Ho) as Hd. unfold Nat.double in Hd. lia.
Qed.

Lemma ascii_line_mapM mat y xs : ∀ out,
  ascii_line shade mat y xs out
    = (out ++.) <$> mapM (λ x, glyph shade (GetVecbAt mat y x)) xs.
Proof.
  induction xs as [|x xs IH]; intros out; cbn.
  - by rewrite app_nil_r.
  - destruct (glyph shade (GetVecbAt mat y x)) as [ch|]; cbn; [| done].
    rewrite IH. destruct (mapM _ xs); cbn; [| done].
    by rewrite <- app_assoc.
Qed.

Lemma ascii_lines_mapM mat ys : ∀ out,
  ascii_lines shade mat ys out
    = (λ lines, out ++ concat ((.++ [newline]) <$> lines)) <$>
      mapM (λ y, mapM (λ x, glyph shade (GetVecbAt mat y x)) (seq 0 (Cols mat))) ys.
Proof.
  induction ys as [|y ys IH]; intros out; cbn.
  - by rewrite app_nil_r.
  - rewrite ascii_line_mapM. destruct (mapM _ (seq 0 (Cols mat))) as [l|]; cbn; [| done].
    rewrite IH. destruct (mapM _ ys); cbn; [| done].
    by rewrite <- !app_assoc.
Qed.

Lemma glyph_Some c ch :
  glyph shade c = Some ch ↔
  (0 ≤ shade c < 10)%Z ∧ asciiChars !! Z.to_nat (shade c) = Some ch.
Proof.
  unfold glyph. change (Z.of_nat (length asciiChars)) with 10%Z.
  case_decide; naive_solver.
Qed.

Lemma glyph_is_Some c : is_Some (glyph shade c) ↔ (0 ≤ shade c < 10)%Z.
Proof.
  split.
  - intros [ch Hch]. by apply glyph_Some in Hch as [? _].
  - intros Hr. unfold glyph. change (Z.of_nat (length asciiChars)) with 10%Z.
    rewrite decide_True by done. apply lookup_lt_is_Some.
    change (length asciiChars) with 10. lia.
Qed.
End rendering.

Lemma length_concat_lines (lines : list (list Byte.byte)) (n : nat) :
  Forall (λ line, length line = n) lines →
  length (concat ((.++ [newline]) <$> lines)) = length lines * S n.
Proof.
  induction 1 as [|line lines Hl _ IH]; [done |].
  cbn. rewrite !length_app, IH, Hl. cbn. lia.
Qed.

Lemma every_other_lookup rows i y :
  every_other rows !! i = Some y → y = 2 * i ∧ 2 * i < rows.
Proof.
  intros Hy. assert (y ∈ every_other rows) as Hin
    by (apply list_elem_of_lookup; eauto).
  unfold every_other in Hy. rewrite list_lookup_fmap in Hy.
  destruct (seq 0 (Nat.div2 (S rows)) !! i) as [j|] eqn:Hj; [| done].
  apply lookup_seq in Hj as [-> _]. cbn in Hy. injection Hy as <-.
  split; [done |]. apply every_other_spec in Hin as (k & Hk & Hlt). lia.
Qed.

(** X10. When the shade of every pixel visited is a valid index into the
    ten glyphs, [matToASCII] returns a text of one line for every second row
    of the image, starting with row 0: each line has one glyph per column,
    the glyph of the pixel's shade, and ends with a newline.  An image resized
    to [2 * h] rows thus gives [h] lines. *)
Theorem matToASCII_grid (shade : Vecb → Z) (mat : Mat) :
  (∀ i x, 2 * i < Rows mat → x < Cols mat →
     (0 ≤ shade (GetVecbAt mat (2 * i) x) < 10)%Z) →
  ∃ lines,
    matToASCII shade mat = Some (concat ((.++ [newline]) <$> lines)) ∧
    length lines = Nat.div2 (S (Rows mat)) ∧
    (∀ h, Rows mat = 2 * h → length lines = h) ∧
    length (concat ((.++ [newline]) <$> lines))
      = Nat.div2 (S (Rows mat)) * S (Cols mat) ∧
    ∀ i line, lines !! i = Some line →
      length line = Cols mat ∧
      ∀ x ch, line !! x = Some ch →
        asciiChars !! Z.to_nat (shade (GetVecbAt mat (2 * i) x)) = Some ch.
Proof.
  intros Hshade. unfold matToASCII. rewrite ascii_lines_mapM.
  set (F := λ y, mapM (λ x, glyph shade (GetVecbAt mat y x)) (seq 0 (Cols mat))).
  assert (is_Some (mapM F (every_other (Rows mat)))) as [lines Hlines].
  { apply mapM_is_Some, Forall_forall. intros y Hy.
    apply every_other_spec in Hy as (i & -> & Hi). cbn.
    apply mapM_is_Some, Forall_forall. intros x Hx. cbn.
    apply elem_of_seq in Hx. apply glyph_is_Some, Hshade; [done | lia]. }
  rewrite Hlines. cbn. exists lines. split; [done |].
  apply mapM_Some in Hlines.
  assert (length lines = Nat.div2 (S (Rows mat))) as Hlen.
  { rewrite <- (Forall2_length _ _ _ Hlines). unfold every_other.
    by rewrite length_fmap, length_seq. }
  assert (∀ i line, lines !! i = Some line →
    length line = Cols mat ∧
    ∀ x ch, line !! x = Some ch →
      asciiChars !! Z.to_nat (shade (GetVecbAt mat (2 * i) x)) = Some ch) as Hgrid.
  { intros i line Hline.
    destruct (Forall2_lookup_r _ _ _ i line Hlines Hline) as (y & Hy & HF).
    apply every_other_lookup in Hy as [-> Hi].
    unfold F in HF. apply mapM_Some in HF. split.
    - rewrite <- (Forall2_length _ _ _ HF). by rewrite length_seq.
    - intros x ch Hch.
      destruct (Forall2_lookup_r _ _ _ x ch HF Hch) as (x' & Hx' & Hg).
      apply lookup_seq in Hx' as [-> _]. cbn in Hg.
      by apply glyph_Some in Hg as [_ Hg]. }
  split_and!; [done | | | done].
  - intros h Hh. rewrite Hlen, Hh.
    replace (S (2 * h)) with (S (Nat.double h)) by (unfold Nat.double; lia).
    apply Nat.div2_succ_double.
  - rewrite (length_concat_lines lines (Cols mat)); [by rewrite Hlen |].
    apply Forall_forall. intros line Hin.
    apply list_elem_of_lookup in Hin as [i Hi]. by apply (Hgrid i line Hi).
Qed.

Lemma matToASCII_grid_witness :
  (∀ i x, 2 * i < 4 → x < 3 → (0 ≤ 7 < 10)%Z) ∧
  ∃ lines,
    matToASCII (λ _, 7%Z) (mkMat 4 3 (λ _ _, mkVecb Byte.xff Byte.xff Byte.x00))
      = Some (concat ((.++ [newline]) <$> lines)) ∧
    length lines = 2 ∧
    ∀ i line, lines !! i = Some line →
      length line = 3 ∧ ∀ x ch, line !! x = Some ch → asciiChars !! 7 = Some ch.
Proof.
  assert (∀ i x, 2 * i < 4 → x < 3 → (0 ≤ 7 < 10)%Z) as Hshade by (intros; lia).
  split; [exact Hshade |].
  destruct (matToASCII_grid (λ _, 7%Z)
              (mkMat 4 3 (λ _ _, mkVecb Byte.xff Byte.xff Byte.x00)) Hshade)
    as (lines & H1 & H2 & _ & _ & H5).
  exists lines. split_and!; [exact H1 | exact H2 | exact H5].
Defined.

(** X11. [matToASCII] panics exactly when the shade of some pixel in an
    even row of the image is not an index into the ten glyphs; the pixels of
    the odd rows are never looked at. *)
Theorem matToASCII_panics_iff (shade : Vecb → Z) (mat : Mat) :
  matToASCII shade mat = None ↔
  ∃ i x, 2 * i < Rows mat ∧ x < Cols mat ∧
    ¬ (0 ≤ shade (GetVecbAt mat (2 * i) x) < 10)%Z.
Proof.
  unfold matToASCII. rewrite ascii_lines_mapM, fmap_None, mapM_None, Exists_exists.
  split.
  - intros (y & Hy & Hnone). apply every_other_spec in Hy as (i & -> & Hi).
    apply mapM_None, Exists_exists in Hnone as (x & Hx & Hg).
    apply elem_of_seq in Hx. exists i, x. split_and!; [done | lia |].
    intros Hr. apply (glyph_is_Some shade) in Hr as [ch Hch]. congruence.
  - intros (i & x & Hi & Hx & Hbad). exists (2 * i). split.
    + apply every_other_spec. eauto.
    + apply mapM_None, Exists_exists. exists x. split.
      * apply elem_of_seq. lia.
      * destruct (glyph shade (GetVecbAt mat (2 * i) x)) as [ch|] eqn:E; [| done].
        apply glyph_Some in E as [Hr _]. done.
Qed.

Section sending.
Implicit Types (st : Screen) (evs : list client_event).

(** What one iteration writes and leaves behind, by cases: nothing when no
    image was captured; otherwise the frame, followed by the size when it
    differs from the one last recorded, cut short by a failed write. *)
Lemma frame_tick_cases st captured size render oks sent next :
  let W := match size with Some (w, _) => wrap_int (w - 1) | None => width st end in
  let H := match size with Some (_, h) => wrap_int (h - 1) | None => height st end in
  let frame := mkMessage MsgTypeFrame 0 0 (render W H) in
  let note := mkMessage MsgTypeSize W H "" in
  frame_tick st captured size render oks = (sent, next) →
  (captured = false ∧ sent = [] ∧ next = Some st) ∨
  (captured = true ∧ next = None ∧ (sent = [] ∨ sent = [frame])) ∨
  (captured = true ∧ W = lastW st ∧ H = lastH st ∧ sent = [frame] ∧
     next = Some (mkScreen W H (lastW st) (lastH st))) ∨
  (captured = true ∧ (W ≠ lastW st ∨ H ≠ lastH st) ∧ sent = [frame; note] ∧
     next = Some (mkScreen W H W H)).
Proof.
  intros W H frame note. unfold frame_tick.
  destruct captured; [| intros [= <- <-]; by left].
  assert (match size with
          | Some (w, h) =>
              mkScreen (wrap_int (w - 1)) (wrap_int (h - 1)) (lastW st) (lastH st)
          | None => st
          end = mkScreen W H (lastW st) (lastH st)) as ->.
  { subst W H. destruct size as [[w h]|]; [done | by destruct st]. }
  cbn [width height lastW lastH]. fold frame note.
  destruct (decide (W ≠ lastW st ∨ H ≠ lastH st)) as [Hne|Heq].
  - destruct oks as [|[] [|[] oks]]; cbn; intros [= <- <-]; naive_solver.
  - assert (W = lastW st ∧ H = lastH st) as [HW HH].
    { split; apply dec_stable; naive_solver. }
    destruct oks as [|[] oks]; cbn; intros [= <- <-]; naive_solver.
Qed.

Lemma on_message_other st msg :
  Type_ msg ≠ MsgTypeSize → on_message st msg = st.
Proof. intros Hne. unfold on_message. by rewrite decide_False. Qed.

Lemma steady_run w h evs : ∀ st,
  width st = wrap_int (w - 1) → lastW st = wrap_int (w - 1) →
  height st = wrap_int (h - 1) → lastH st = wrap_int (h - 1) →
  Forall (steady w h) evs →
  Forall (λ msg, Type_ msg = MsgTypeFrame) (client_run st evs).
Proof.
  induction evs as [|ev evs IH]; intros st Hw HlW Hh HlH Hsteady; [done |].
  apply Forall_cons in Hsteady as [Hev Hsteady].
  destruct ev as [captured size render oks|msg]; cbn.
  - destruct (frame_tick st captured size render oks) as [sent next] eqn:E.
    assert (match size with Some (w0, _) => wrap_int (w0 - 1) | None => width st end
            = wrap_int (w - 1)) as HW
      by (destruct Hev as [-> | ->]; done).
    assert (match size with Some (_, h0) => wrap_int (h0 - 1) | None => height st end
            = wrap_int (h - 1)) as HH
      by (destruct Hev as [-> | ->]; done).
    apply frame_tick_cases in E. rewrite HW, HH in E.
    destruct E as [(_ & -> & ->)|[(_ & -> & [-> | ->])|
                  [(_ & _ & _ & -> & ->)|(_ & Hne & _)]]].
    + by apply IH.
    + done.
    + by repeat constructor.
    + apply Forall_app. split; [by repeat constructor |]. by apply IH.
    + rewrite HlW, HlH in Hne. naive_solver.
  - cbn in Hev. rewrite on_message_other by done. by apply IH.
Qed.

Lemma bookkeeping_run evs : ∀ st st',
  Forall no_remote_size evs →
  client_end st evs = Some st' →
  (lastW st', lastH st') = announced (lastW st, lastH st) (client_run st evs) ∧
  (width st = lastW st → height st = lastH st →
     width st' = lastW st' ∧ height st' = lastH st').
Proof.
  induction evs as [|ev evs IH]; intros st st' Hquiet; cbn.
  - by intros [= <-].
  - apply Forall_cons in Hquiet as [Hev Hquiet].
    destruct ev as [captured size render oks|msg]; cbn.
    + destruct (frame_tick st captured size render oks) as [sent next] eqn:E.
      apply frame_tick_cases in E.
      destruct E as [(_ & -> & ->)|[(_ & -> & _)|
                    [(_ & HW & HH & -> & ->)|(_ & Hne & -> & ->)]]].
      * intros Hend. by apply IH.
      * done.
      * intros Hend. destruct (IH _ st' Hquiet Hend) as [IH1 IH2].
        unfold announced in *. rewrite foldl_app. cbn in *.
        split; [done |]. intros _ _. by apply IH2.
      * intros Hend. destruct (IH _ st' Hquiet Hend) as [IH1 IH2].
        unfold announced in *. rewrite foldl_app. cbn in *.
        split; [done |]. intros _ _. by apply IH2.
    + cbn in Hev. rewrite on_message_other by done. by apply IH.
Qed.
End sending.

(** X12. A terminal that keeps its size is never announced: when [main]
    starts on a terminal of [w] by [h], every later [GetSize] answers the
    same or fails, and the peer sends no size message, every message the
    client writes is a frame; the peer is never told the size. *)
Theorem steady_size_never_announced (w h : Z) (evs : list client_event) :
  Forall (steady w h) evs →
  Forall (λ msg, Type_ msg = MsgTypeFrame)
    (client_run (start_screen true (Some (w, h))) evs).
Proof. intros Hsteady. by apply (steady_run w h). Qed.

Lemma steady_size_never_announced_witness :
  Forall (steady 81 41) quiet_session ∧
  Forall (λ msg, Type_ msg = MsgTypeFrame)
    (client_run (start_screen true (Some (81, 41)%Z)) quiet_session).
Proof.
  assert (Forall (steady 81 41) quiet_session) as Hsteady.
  { apply Forall_cons; split; [by left |].
    apply Forall_cons; split; [cbn; discriminate |].
    apply Forall_cons; split; [by right | by apply Forall_nil]. }
  split; [exact Hsteady |].
  exact (steady_size_never_announced 81 41 quiet_session Hsteady).
Defined.

(** X13. [lastW] and [lastH] record what the peer was last told: as long
    as [main] runs and the peer sends no size message, they are the
    dimensions carried by the last size message written, or their first
    values when none was written; and once they agree with [width] and
    [height], they agree again at the end of every iteration. *)
Theorem announced_size_is_recorded (st st' : Screen) (evs : list client_event) :
  Forall no_remote_size evs →
  client_end st evs = Some st' →
  (lastW st', lastH st') = announced (lastW st, lastH st) (client_run st evs) ∧
  (width st = lastW st → height st = lastH st →
     width st' = lastW st' ∧ height st' = lastH st').
Proof. intros Hquiet Hend. by apply bookkeeping_run. Qed.

Lemma announced_size_is_recorded_witness :
  Forall no_remote_size resized_session ∧
  client_end (start_screen true (Some (81, 41)%Z)) resized_session
    = Some (mkScreen 100 30 100 30) ∧
  (100, 30)%Z
    = announced (80, 40)%Z
        (client_run (start_screen true (Some (81, 41)%Z)) resized_session).
Proof.
  assert (Forall no_remote_size resized_session) as Hquiet.
  { apply Forall_cons; split; [done |].
    apply Forall_cons; split; [done |].
    apply Forall_cons; split; [cbn; discriminate | by apply Forall_nil]. }
  assert (client_end (start_screen true (Some (81, 41)%Z)) resized_session
    = Some (mkScreen 100 30 100 30)) as Hend by (by vm_compute).
  split_and!; [exact Hquiet | exact Hend |].
  exact (proj1 (announced_size_is_recorded _ _ resized_session Hquiet Hend)).
Defined.

Section colour.
Variable shade : Vecb → Z.
Implicit Types (mat : Mat) (out : list Byte.byte).

Lemma byte_eqb_ne (a b : Byte.byte) : a ≠ b → Byte.eqb a b = false.
Proof.
  intros Hne. destruct (Byte.eqb a b) eqn:E; [| done].
  by apply Byte.byte_dec_bl in E.
Qed.

Lemma decimal_no_m b : Forall (λ d, d ≠ Byte.x6d) (decimal b).
Proof.
  assert (forallb (λ d, negb (Byte.eqb d Byte.x6d)) (decimal b) = true) as Hb
    by (by destruct b; vm_compute).
  apply Forall_forall. intros d Hd Heq. subst d.
  rewrite forallb_forall in Hb. apply list_elem_of_In, Hb in Hd. done.
Qed.

Lemma visible_inside body rest :
  Forall (λ d, d ≠ Byte.x6d) body →
  visible true (body ++ Byte.x6d :: rest) = visible false rest.
Proof.
  induction 1 as [|d body Hd _ IH]; cbn [app visible]; [done |].
  by rewrite byte_eqb_ne.
Qed.

Lemma glyph_not_esc c ch : glyph shade c = Some ch → ch ≠ esc.
Proof.
  intros Hg%glyph_Some. destruct Hg as [Hr Hch].
  assert (Z.to_nat (shade c) < 10) as Hlt by lia.
  destruct (Z.to_nat (shade c)) as [|[|[|[|[|[|[|[|[|[|n]]]]]]]]]];
    try lia; by injection Hch as <-.
Qed.

Lemma visible_cell c ch rest :
  ch ≠ esc → visible false (colour_cell c ch ++ rest) = ch :: visible false rest.
Proof.
  intros Hch. unfold colour_cell. cbn [app visible].
  change (Byte.eqb esc esc) with true. cbn iota.
  replace ((list_byte_of_string "[38;2;" ++ decimal (red c) ++
            list_byte_of_string ";" ++ decimal (green c) ++
            list_byte_of_string ";" ++ decimal (blue c) ++
            list_byte_of_string "m" ++ [ch]) ++ rest)
    with ((list_byte_of_string "[38;2;" ++ decimal (red c) ++
           list_byte_of_string ";" ++ decimal (green c) ++
           list_byte_of_string ";" ++ decimal (blue c)) ++
          Byte.x6d :: ch :: rest)
    by (by rewrite <- !app_assoc).
  rewrite visible_inside.
  - cbn [visible]. by rewrite byte_eqb_ne.
  - repeat (apply Forall_app; split); try apply decimal_no_m;
      by repeat constructor.
Qed.

Lemma settled_nil : settled [].
Proof. by intros rest. Qed.

Lemma settled_cell out c ch :
  ch ≠ esc → settled out →
  settled (out ++ colour_cell c ch) ∧
  visible false (out ++ colour_cell c ch) = visible false out ++ [ch].
Proof.
  intros Hch Hout.
  assert (∀ rest, visible false ((out ++ colour_cell c ch) ++ rest)
                  = (visible false out ++ [ch]) ++ visible false rest) as Hgen.
  { intros rest. rewrite <- !app_assoc, Hout, visible_cell by done. done. }
  split.
  - intros rest. rewrite Hgen. f_equal.
    specialize (Hgen []). by rewrite !app_nil_r in Hgen.
  - specialize (Hgen []). by rewrite !app_nil_r in Hgen.
Qed.

Lemma settled_byte out b :
  b ≠ esc → settled out →
  settled (out ++ [b]) ∧ visible false (out ++ [b]) = visible false out ++ [b].
Proof.
  intros Hb Hout.
  assert (∀ rest, visible false ((out ++ [b]) ++ rest)
                  = (visible false out ++ [b]) ++ visible false rest) as Hgen.
  { intros rest. rewrite <- !app_assoc, Hout. cbn. by rewrite byte_eqb_ne. }
  split.
  - intros rest. rewrite Hgen. f_equal.
    specialize (Hgen []). by rewrite !app_nil_r in Hgen.
  - specialize (Hgen []). by rewrite !app_nil_r in Hgen.
Qed.

(** The two inner loops side by side: they fail together, and what the
    coloured one has built shows as what the plain one has built. *)
Lemma colour_line_visible mat y xs : ∀ oc oa,
  settled oc → visible false oc = oa →
  match colour_line shade mat y xs oc, ascii_line shade mat y xs oa with
  | Some oc', Some oa' => settled oc' ∧ visible false oc' = oa'
  | None, None => True
  | _, _ => False
  end.
Proof.
  induction xs as [|x xs IH]; intros oc oa Hs Hv; cbn; [done |].
  destruct (glyph shade (GetVecbAt mat y x)) as [ch|] eqn:Hg; [| done].
  destruct (settled_cell oc (GetVecbAt mat y x) ch (glyph_not_esc _ _ Hg) Hs)
    as [Hs' Hv'].
  apply IH; [done |]. by rewrite Hv', Hv.
Qed.

Lemma colour_lines_visible mat ys : ∀ oc oa,
  settled oc → visible false oc = oa →
  match colour_lines shade mat ys oc, ascii_lines shade mat ys oa with
  | Some oc', Some oa' => settled oc' ∧ visible false oc' = oa'
  | None, None => True
  | _, _ => False
  end.
Proof.
  induction ys as [|y ys IH]; intros oc oa Hs Hv; cbn; [done |].
  pose proof (colour_line_visible mat y (seq 0 (Cols mat)) oc oa Hs Hv) as Hline.
  destruct (colour_line shade mat y (seq 0 (Cols mat)) oc) as [oc1|],
           (ascii_line shade mat y (seq 0 (Cols mat)) oa) as [oa1|]; try done.
  destruct Hline as [Hs1 Hv1].
  destruct (settled_byte oc1 newline) as [Hs2 Hv2]; [done | done |].
  apply IH; [done |]. by rewrite Hv2, Hv1.
Qed.
End colour.

(** X14. The coloured rendering shows the same text as the plain one: with
    the ANSI colour sequences taken out, the output of [matToASCIIColor] is
    the output of [matToASCII] for the same image, and the two panic on the
    same images. *)
Theorem matToASCIIColor_shows_matToASCII (shade : Vecb → Z) (mat : Mat) :
  visible false <$> matToASCIIColor shade mat = matToASCII shade mat.
Proof.
  unfold matToASCIIColor, matToASCII.
  pose proof (colour_lines_visible shade mat (every_other (Rows mat)) [] []
                settled_nil eq_refl) as H.
  destruct (colour_lines shade mat (every_other (Rows mat)) []) as [oc|],
           (ascii_lines shade mat (every_other (Rows mat)) []) as [oa|];
    try done.
  destruct H as [Hs Hv]. cbn. f_equal.
  rewrite Hs, Hv. cbn. by rewrite app_nil_r.
Qed.

(** One cell of the coloured rendering: an orange pixel shown as a hash. *)
Example colour_cell_orange :
  colour_cell (mkVecb Byte.x00 Byte.x80 Byte.xff) Byte.x23
    = esc :: list_byte_of_string "[38;2;255;128;0m#".
Proof. reflexivity. Qed.

(** A 3 by 2 image whose pixels all have shade 7, in plain text. *)
Example matToASCII_small :
  matToASCII (λ _, 7%Z) (mkMat 3 2 (λ _ _, mkVecb Byte.x00 Byte.x00 Byte.x00))
    = Some (list_byte_of_string "##" ++ [newline] ++
            list_byte_of_string "##" ++ [newline]).
Proof. reflexivity. Qed.

(** [int] arithmetic wraps around at the ends of its range only. *)
Example wrap_int_samples :
  wrap_int 80 = 80%Z ∧ wrap_int (-1) = (-1)%Z ∧
  wrap_int (2 ^ 63) = (- 2 ^ 63)%Z ∧ wrap_int (- 2 ^ 63 - 1) = (2 ^ 63 - 1)%Z.
Proof. by vm_compute. Qed.
